(** * Design tokens: expression language, resolver, renderers and the
    studio.tokens extension (crate [ambient_design_tokens_core], with the
    extension transform of the older root crate [design_tokens]).

    Modelling conventions.
    - Floating-point magnitudes ([f32] numbers, [f64] colour channels and
      extension amounts) are modelled by exact rationals [Q], kept reduced
      with [Qred]; rounding is not modelled. The infinities and NaN are
      modelled where the input can produce them: an extension amount
      ([str::parse::<f64>] reads [inf] and [nan]) is an [F64].
    - Rust strings are [string]. Keys are taken to be ASCII text without
      DEL (bytes below 127), which [deunicode] returns unchanged; the
      theorems about the characters of a slug assume it.
    - A panic (an [unwrap], [expect], [assert_eq!], [todo!] or [panic!]) is a
      [Fault]; the recursion of [Expression::get_value] is bounded by a fuel
      argument, and running out of fuel ([Diverge]) stands for unbounded
      recursion.
    - [TokenValue::Dict] is a [HashMap]: its iteration order is not
      specified, so the renderers take the iteration order as an argument. *)

From Stdlib Require Import String Ascii List Bool ZArith QArith Qround DecimalString
  Permutation Lia Lqa DecimalN.
Import ListNotations.
Set Warnings "-register-all".
Open Scope string_scope.

(* ------------------------------------------------------------------ *)
(** ** Small string helpers *)

Definition char_to_string (c : ascii) : string := String c EmptyString.

(** The double-quote character. *)
Definition dq : string := char_to_string "034".

(** [s.split(sep)] for a one-character separator. *)
Fixpoint split_on (sep : ascii) (s : string) : list string :=
  match s with
  | EmptyString => [EmptyString]
  | String c s' =>
      if Ascii.eqb c sep then EmptyString :: split_on sep s'
      else match split_on sep s' with
           | [] => [char_to_string c]
           | w :: ws => String c w :: ws
           end
  end.

(** [s.replace(c, rep)] for a one-character pattern. *)
Fixpoint str_replace (c : ascii) (rep : string) (s : string) : string :=
  match s with
  | EmptyString => EmptyString
  | String c' s' =>
      if Ascii.eqb c' c then rep ++ str_replace c rep s'
      else String c' (str_replace c rep s')
  end.

Definition is_lower (c : ascii) : bool :=
  let n := nat_of_ascii c in Nat.leb 97 n && Nat.leb n 122.
Definition is_upper (c : ascii) : bool :=
  let n := nat_of_ascii c in Nat.leb 65 n && Nat.leb n 90.
Definition is_digit (c : ascii) : bool :=
  let n := nat_of_ascii c in Nat.leb 48 n && Nat.leb n 57.
Definition is_alnum (c : ascii) : bool :=
  is_lower c || is_upper c || is_digit c.

Definition ascii_lower (c : ascii) : ascii :=
  if is_upper c then ascii_of_nat (nat_of_ascii c + 32) else c.
Definition ascii_upper (c : ascii) : ascii :=
  if is_lower c then ascii_of_nat (nat_of_ascii c - 32) else c.

Fixpoint map_chars (f : ascii -> ascii) (s : string) : string :=
  match s with
  | EmptyString => EmptyString
  | String c s' => String (f c) (map_chars f s')
  end.

Definition to_ascii_lowercase : string -> string := map_chars ascii_lower.
Definition to_ascii_uppercase : string -> string := map_chars ascii_upper.

Fixpoint join (sep : string) (l : list string) : string :=
  match l with
  | [] => EmptyString
  | [x] => x
  | x :: l' => x ++ sep ++ join sep l'
  end.

(** [s.contains(c)] for a one-character pattern. *)
Fixpoint str_contains (c : ascii) (s : string) : bool :=
  match s with
  | EmptyString => false
  | String c' s' => Ascii.eqb c c' || str_contains c s'
  end.

(** Longest prefix of [s] whose characters satisfy [p], and the rest. *)
Fixpoint span (p : ascii -> bool) (s : string) : string * string :=
  match s with
  | EmptyString => (EmptyString, EmptyString)
  | String c s' =>
      if p c then let (w, rest) := span p s' in (String c w, rest)
      else (EmptyString, s)
  end.

(* ------------------------------------------------------------------ *)
(** ** Outcomes: a value, a panic, or recursion that never returns *)

Inductive Fault : Type :=
| AssertEqFailed                    (* assert_eq!(path.len(), 0) *)
| IndexOutOfBounds                  (* path[0] on an empty slice, &path[1..] on an empty string *)
| NoSuchPath (path : list string)   (* .expect("No such path: ...") *)
| CantResolve                       (* panic!("Can't resolve") *)
| NotHandled                        (* todo!("Not handled: ...") in Mul *)
| Todo                              (* todo!() *)
| UnwrapFailed                      (* Result::unwrap / Option::unwrap on an error *)
| InvalidType                       (* panic!("Invalid type: ...") *)
| UnexpectedBaseValue.              (* panic!("Unexpected base value: ...") *)

Inductive Run (A : Type) : Type :=
| Ret (x : A)
| Panic (f : Fault)
| Diverge.
Arguments Ret {A} x.
Arguments Panic {A} f.
Arguments Diverge {A}.

Definition bind {A B} (m : Run A) (k : A -> Run B) : Run B :=
  match m with
  | Ret x => k x
  | Panic f => Panic f
  | Diverge => Diverge
  end.

Notation "x <- m ;; k" := (bind m (fun x => k))
  (at level 61, m at next level, right associativity).

Fixpoint run_map {A B} (f : A -> Run B) (l : list A) : Run (list B) :=
  match l with
  | [] => Ret []
  | x :: l' => y <- f x ;; ys <- run_map f l' ;; Ret (y :: ys)
  end.

(* ------------------------------------------------------------------ *)
(** ** Numbers: [f32] / [f64] as exact rationals *)

Fixpoint digits_value_aux (acc : Z) (s : string) : Z :=
  match s with
  | EmptyString => acc
  | String c s' => digits_value_aux (acc * 10 + (Z.of_nat (nat_of_ascii c) - 48)) s'
  end.

(** The value of a string of decimal digits. *)
Definition digits_value (s : string) : Z := digits_value_aux 0 s.

(** [str::parse::<f32>] on text of the form "-"? digits ("."? digits), the only
    text the [number] rule hands it: the sign, the integer digits and the
    fraction digits. The conversion never fails on that text. *)
Definition decimal_value (neg : bool) (int frac : string) : Q :=
  let m := digits_value (int ++ frac) in
  Qred ((if neg then Z.opp m else m) # Z.to_pos (10 ^ Z.of_nat (String.length frac))%Z).

Definition f32_mul (x y : Q) : Q := Qred (x * y).
Definition f32_div (x y : Q) : Q := Qred (x / y).

Definition uint_string (n : N) : string :=
  NilZero.string_of_uint (N.to_uint n).

Fixpoint pad_left (k : nat) (s : string) : string :=
  match k with
  | O => s
  | S k' => if Nat.leb (S k') (String.length s) then s else pad_left k' ("0" ++ s)
  end.

Fixpoint strip_trailing_zeros_rev (s : list ascii) : list ascii :=
  match s with
  | "0"%char :: s' => strip_trailing_zeros_rev s'
  | _ => s
  end.

Definition strip_trailing_zeros (s : string) : string :=
  string_of_list_ascii (rev (strip_trailing_zeros_rev (rev (list_ascii_of_string s)))).

Fixpoint pow2_5 (d : positive) (fuel : nat) : option nat :=
  match fuel with
  | O => None
  | S fuel' =>
      if Pos.eqb d 1 then Some O
      else if Z.eqb (Z.pos d mod 2) 0 then
        option_map S (pow2_5 (Z.to_pos (Z.pos d / 2)) fuel')
      else if Z.eqb (Z.pos d mod 5) 0 then
        option_map S (pow2_5 (Z.to_pos (Z.pos d / 5)) fuel')
      else None
  end.

(** [format!("{}", x)] for a float: the decimal expansion, without exponent
    and without a trailing [.0]. A magnitude whose expansion does not
    terminate is printed to nine fractional digits (the model does not
    compute the shortest round-tripping digits of the float). *)
Definition display_q (x : Q) : string :=
  let x := Qred x in
  let k := match pow2_5 (Qden x) (Pos.size_nat (Qden x)) with
           | Some k => k | None => 9%nat end in
  let scaled := Z.abs (Qnum x * 10 ^ Z.of_nat k / Z.pos (Qden x))%Z in
  let ip := (scaled / 10 ^ Z.of_nat k)%Z in
  let fp := (scaled mod 10 ^ Z.of_nat k)%Z in
  let sign := if Z.ltb (Qnum x) 0 then "-" else EmptyString in
  let frac := strip_trailing_zeros (pad_left k (uint_string (Z.to_N fp))) in
  sign ++ uint_string (Z.to_N ip) ++
  (if String.eqb frac EmptyString then EmptyString else "." ++ frac).

(* ------------------------------------------------------------------ *)
(** ** Colours: the [csscolorparser] crate, with [f64] channels *)

Record Color : Type := mkColor { r : Q; g : Q; b : Q; a : Q }.

Definition Color_new (r0 g0 b0 a0 : Q) : Color := mkColor r0 g0 b0 a0.

(** [Color::from_rgba8]: each byte divided by 255. *)
Definition from_rgba8 (r8 g8 b8 a8 : Z) : Color :=
  mkColor (Qred (r8 # 255)) (Qred (g8 # 255)) (Qred (b8 # 255)) (Qred (a8 # 255)).

Definition hex_digit (c : ascii) : option Z :=
  let n := Z.of_nat (nat_of_ascii c) in
  if is_digit c then Some (n - 48)%Z
  else if Nat.leb 97 (nat_of_ascii c) && Nat.leb (nat_of_ascii c) 102 then Some (n - 87)%Z
  else if Nat.leb 65 (nat_of_ascii c) && Nat.leb (nat_of_ascii c) 70 then Some (n - 55)%Z
  else None.

(** [u8::from_str_radix(s, 16)] on two hex digits. *)
Definition hex_byte (c1 c2 : ascii) : option Z :=
  match hex_digit c1, hex_digit c2 with
  | Some h, Some l => Some (h * 16 + l)%Z
  | _, _ => None
  end.

(** [parse_hex]: 3, 4, 6 or 8 hex digits. *)
Definition parse_hex (s : string) : option Color :=
  match list_ascii_of_string s with
  | [c1; c2; c3] =>
      match hex_byte c1 c1, hex_byte c2 c2, hex_byte c3 c3 with
      | Some r8, Some g8, Some b8 => Some (from_rgba8 r8 g8 b8 255)
      | _, _, _ => None
      end
  | [c1; c2; c3; c4] =>
      match hex_byte c1 c1, hex_byte c2 c2, hex_byte c3 c3, hex_byte c4 c4 with
      | Some r8, Some g8, Some b8, Some a8 => Some (from_rgba8 r8 g8 b8 a8)
      | _, _, _, _ => None
      end
  | [c1; c2; c3; c4; c5; c6] =>
      match hex_byte c1 c2, hex_byte c3 c4, hex_byte c5 c6 with
      | Some r8, Some g8, Some b8 => Some (from_rgba8 r8 g8 b8 255)
      | _, _, _ => None
      end
  | [c1; c2; c3; c4; c5; c6; c7; c8] =>
      match hex_byte c1 c2, hex_byte c3 c4, hex_byte c5 c6, hex_byte c7 c8 with
      | Some r8, Some g8, Some b8, Some a8 => Some (from_rgba8 r8 g8 b8 a8)
      | _, _, _, _ => None
      end
  | _ => None
  end.

(** [NAMED_COLORS]: the CSS named colours (feature [named-colors]). *)
Definition NAMED_COLORS : list (string * (Z * Z * Z)) := [
  ("aliceblue", (240, 248, 255))%Z;
  ("antiquewhite", (250, 235, 215))%Z;
  ("aqua", (0, 255, 255))%Z;
  ("aquamarine", (127, 255, 212))%Z;
  ("azure", (240, 255, 255))%Z;
  ("beige", (245, 245, 220))%Z;
  ("bisque", (255, 228, 196))%Z;
  ("black", (0, 0, 0))%Z;
  ("blanchedalmond", (255, 235, 205))%Z;
  ("blue", (0, 0, 255))%Z;
  ("blueviolet", (138, 43, 226))%Z;
  ("brown", (165, 42, 42))%Z;
  ("burlywood", (222, 184, 135))%Z;
  ("cadetblue", (95, 158, 160))%Z;
  ("chartreuse", (127, 255, 0))%Z;
  ("chocolate", (210, 105, 30))%Z;
  ("coral", (255, 127, 80))%Z;
  ("cornflowerblue", (100, 149, 237))%Z;
  ("cornsilk", (255, 248, 220))%Z;
  ("crimson", (220, 20, 60))%Z;
  ("cyan", (0, 255, 255))%Z;
  ("darkblue", (0, 0, 139))%Z;
  ("darkcyan", (0, 139, 139))%Z;
  ("darkgoldenrod", (184, 134, 11))%Z;
  ("darkgray", (169, 169, 169))%Z;
  ("darkgreen", (0, 100, 0))%Z;
  ("darkgrey", (169, 169, 169))%Z;
  ("darkkhaki", (189, 183, 107))%Z;
  ("darkmagenta", (139, 0, 139))%Z;
  ("darkolivegreen", (85, 107, 47))%Z;
  ("darkorange", (255, 140, 0))%Z;
  ("darkorchid", (153, 50, 204))%Z;
  ("darkred", (139, 0, 0))%Z;
  ("darksalmon", (233, 150, 122))%Z;
  ("darkseagreen", (143, 188, 143))%Z;
  ("darkslateblue", (72, 61, 139))%Z;
  ("darkslategray", (47, 79, 79))%Z;
  ("darkslategrey", (47, 79, 79))%Z;
  ("darkturquoise", (0, 206, 209))%Z;
  ("darkviolet", (148, 0, 211))%Z;
  ("deeppink", (255, 20, 147))%Z;
  ("deepskyblue", (0, 191, 255))%Z;
  ("dimgray", (105, 105, 105))%Z;
  ("dimgrey", (105, 105, 105))%Z;
  ("dodgerblue", (30, 144, 255))%Z;
  ("firebrick", (178, 34, 34))%Z;
  ("floralwhite", (255, 250, 240))%Z;
  ("forestgreen", (34, 139, 34))%Z;
  ("fuchsia", (255, 0, 255))%Z;
  ("gainsboro", (220, 220, 220))%Z;
  ("ghostwhite", (248, 248, 255))%Z;
  ("gold", (255, 215, 0))%Z;
  ("goldenrod", (218, 165, 32))%Z;
  ("gray", (128, 128, 128))%Z;
  ("green", (0, 128, 0))%Z;
  ("greenyellow", (173, 255, 47))%Z;
  ("grey", (128, 128, 128))%Z;
  ("honeydew", (240, 255, 240))%Z;
  ("hotpink", (255, 105, 180))%Z;
  ("indianred", (205, 92, 92))%Z;
  ("indigo", (75, 0, 130))%Z;
  ("ivory", (255, 255, 240))%Z;
  ("khaki", (240, 230, 140))%Z;
  ("lavender", (230, 230, 250))%Z;
  ("lavenderblush", (255, 240, 245))%Z;
  ("lawngreen", (124, 252, 0))%Z;
  ("lemonchiffon", (255, 250, 205))%Z;
  ("lightblue", (173, 216, 230))%Z;
  ("lightcoral", (240, 128, 128))%Z;
  ("lightcyan", (224, 255, 255))%Z;
  ("lightgoldenrodyellow", (250, 250, 210))%Z;
  ("lightgray", (211, 211, 211))%Z;
  ("lightgreen", (144, 238, 144))%Z;
  ("lightgrey", (211, 211, 211))%Z;
  ("lightpink", (255, 182, 193))%Z;
  ("lightsalmon", (255, 160, 122))%Z;
  ("lightseagreen", (32, 178, 170))%Z;
  ("lightskyblue", (135, 206, 250))%Z;
  ("lightslategray", (119, 136, 153))%Z;
  ("lightslategrey", (119, 136, 153))%Z;
  ("lightsteelblue", (176, 196, 222))%Z;
  ("lightyellow", (255, 255, 224))%Z;
  ("lime", (0, 255, 0))%Z;
  ("limegreen", (50, 205, 50))%Z;
  ("linen", (250, 240, 230))%Z;
  ("magenta", (255, 0, 255))%Z;
  ("maroon", (128, 0, 0))%Z;
  ("mediumaquamarine", (102, 205, 170))%Z;
  ("mediumblue", (0, 0, 205))%Z;
  ("mediumorchid", (186, 85, 211))%Z;
  ("mediumpurple", (147, 112, 219))%Z;
  ("mediumseagreen", (60, 179, 113))%Z;
  ("mediumslateblue", (123, 104, 238))%Z;
  ("mediumspringgreen", (0, 250, 154))%Z;
  ("mediumturquoise", (72, 209, 204))%Z;
  ("mediumvioletred", (199, 21, 133))%Z;
  ("midnightblue", (25, 25, 112))%Z;
  ("mintcream", (245, 255, 250))%Z;
  ("mistyrose", (255, 228, 225))%Z;
  ("moccasin", (255, 228, 181))%Z;
  ("navajowhite", (255, 222, 173))%Z;
  ("navy", (0, 0, 128))%Z;
  ("oldlace", (253, 245, 230))%Z;
  ("olive", (128, 128, 0))%Z;
  ("olivedrab", (107, 142, 35))%Z;
  ("orange", (255, 165, 0))%Z;
  ("orangered", (255, 69, 0))%Z;
  ("orchid", (218, 112, 214))%Z;
  ("palegoldenrod", (238, 232, 170))%Z;
  ("palegreen", (152, 251, 152))%Z;
  ("paleturquoise", (175, 238, 238))%Z;
  ("palevioletred", (219, 112, 147))%Z;
  ("papayawhip", (255, 239, 213))%Z;
  ("peachpuff", (255, 218, 185))%Z;
  ("peru", (205, 133, 63))%Z;
  ("pink", (255, 192, 203))%Z;
  ("plum", (221, 160, 221))%Z;
  ("powderblue", (176, 224, 230))%Z;
  ("purple", (128, 0, 128))%Z;
  ("rebeccapurple", (102, 51, 153))%Z;
  ("red", (255, 0, 0))%Z;
  ("rosybrown", (188, 143, 143))%Z;
  ("royalblue", (65, 105, 225))%Z;
  ("saddlebrown", (139, 69, 19))%Z;
  ("salmon", (250, 128, 114))%Z;
  ("sandybrown", (244, 164, 96))%Z;
  ("seagreen", (46, 139, 87))%Z;
  ("seashell", (255, 245, 238))%Z;
  ("sienna", (160, 82, 45))%Z;
  ("silver", (192, 192, 192))%Z;
  ("skyblue", (135, 206, 235))%Z;
  ("slateblue", (106, 90, 205))%Z;
  ("slategray", (112, 128, 144))%Z;
  ("slategrey", (112, 128, 144))%Z;
  ("snow", (255, 250, 250))%Z;
  ("springgreen", (0, 255, 127))%Z;
  ("steelblue", (70, 130, 180))%Z;
  ("tan", (210, 180, 140))%Z;
  ("teal", (0, 128, 128))%Z;
  ("thistle", (216, 191, 216))%Z;
  ("tomato", (255, 99, 71))%Z;
  ("turquoise", (64, 224, 208))%Z;
  ("violet", (238, 130, 238))%Z;
  ("wheat", (245, 222, 179))%Z;
  ("white", (255, 255, 255))%Z;
  ("whitesmoke", (245, 245, 245))%Z;
  ("yellow", (255, 255, 0))%Z;
  ("yellowgreen", (154, 205, 50))%Z
].

Fixpoint assoc_str {A} (k : string) (l : list (string * A)) : option A :=
  match l with
  | [] => None
  | (k', v) :: l' => if String.eqb k k' then Some v else assoc_str k l'
  end.

Definition is_ws (c : ascii) : bool :=
  Ascii.eqb c " " || Ascii.eqb c "009" || Ascii.eqb c "010" || Ascii.eqb c "013".

Definition trim (s : string) : string :=
  let drop := fun l => snd (span is_ws (string_of_list_ascii l)) in
  string_of_list_ascii
    (rev (list_ascii_of_string (drop (rev (list_ascii_of_string (drop (list_ascii_of_string s))))))).

(** [csscolorparser::parse] on a string without [(]: [transparent], a named
    colour, [#] and hex digits, or hex digits alone. *)
Definition csscolorparser_parse (s0 : string) : option Color :=
  let s := to_ascii_lowercase (trim s0) in
  if String.eqb s "transparent" then Some (Color_new 0 0 0 0)
  else match assoc_str s NAMED_COLORS with
  | Some (r8, g8, b8) => Some (from_rgba8 r8 g8 b8 255)
  | None =>
      match s with
      | String "#" s' => parse_hex s'
      | _ => parse_hex s
      end
  end.

Definition Qround_half_away (x : Q) : Z :=
  if Qle_bool 0 x then Qfloor (x + (1 # 2)) else Z.opp (Qfloor (- x + (1 # 2))).

(** A channel as a byte: [(x * 255.0).round() as u8] ([as] saturates). *)
Definition channel_u8 (x : Q) : Z :=
  Z.max 0 (Z.min 255 (Qround_half_away (x * 255))).

Definition hex_char (n : Z) : ascii :=
  if Z.ltb n 10 then ascii_of_nat (Z.to_nat n + 48) else ascii_of_nat (Z.to_nat n + 87).

(** [format!("{:02x}", n)]. *)
Definition hex2 (n : Z) : string :=
  String (hex_char (n / 16)) (String (hex_char (n mod 16)) EmptyString).

(** [Color::to_hex_string]: [#rrggbb], or [#rrggbbaa] when alpha < 255. *)
Definition to_hex_string (c : Color) : string :=
  let r8 := channel_u8 (r c) in
  let g8 := channel_u8 (g c) in
  let b8 := channel_u8 (b c) in
  let a8 := channel_u8 (a c) in
  if Z.ltb a8 255 then "#" ++ hex2 r8 ++ hex2 g8 ++ hex2 b8 ++ hex2 a8
  else "#" ++ hex2 r8 ++ hex2 g8 ++ hex2 b8.

(** HSL conversions of [csscolorparser] (channels in [0, 1], hue in degrees). *)

Definition fmin (x y : Q) : Q := if Qle_bool x y then x else y.
Definition fmax (x y : Q) : Q := if Qle_bool x y then y else x.
Definition flt (x y : Q) : bool := negb (Qle_bool y x).
Definition feq (x y : Q) : bool := Qeq_bool x y.

Definition Qtrunc (x : Q) : Z := if Qle_bool 0 x then Qfloor x else Qceiling x.

(** The float remainder [x % n]: the sign follows [x]. *)
Definition frem (x n : Q) : Q := Qred (x - n * inject_Z (Qtrunc (x / n))).

Definition modulo (x n : Q) : Q := frem (frem x n + n) n.

Definition normalize_angle (t0 : Q) : Q :=
  let t := frem t0 360 in if flt t 0 then Qred (t + 360) else t.

Definition clamp0_1 (t : Q) : Q :=
  if flt t 0 then 0 else if flt 1 t then 1 else t.

Definition rgb_to_hsl (r0 g0 b0 : Q) : Q * Q * Q :=
  let mn := fmin r0 (fmin g0 b0) in
  let mx := fmax r0 (fmax g0 b0) in
  let l := Qred ((mx + mn) / 2) in
  if feq mn mx then (0, 0, l)
  else
    let d := mx - mn in
    let s := if flt l (1 # 2) then d / (mx + mn) else d / (2 - mx - mn) in
    let dr := (mx - r0) / d in
    let dg := (mx - g0) / d in
    let db := (mx - b0) / d in
    let h := if feq r0 mx then db - dg
             else if feq g0 mx then 2 + dr - db
             else 4 + dg - dr in
    let h := frem (h * 60) 360 in
    let h := if flt h 0 then h + 360 else h in
    (Qred h, Qred s, l).

Definition hue_to_rgb (n1 n2 h0 : Q) : Q :=
  let h := modulo h0 6 in
  if flt h 1 then Qred (n1 + (n2 - n1) * h)
  else if flt h 3 then n2
  else if flt h 4 then Qred (n1 + (n2 - n1) * (4 - h))
  else n1.

Definition hsl_to_rgb (h0 s l : Q) : Q * Q * Q :=
  if feq s 0 then (l, l, l)
  else
    let n2 := if flt l (1 # 2) then l * (1 + s) else l + s - l * s in
    let n1 := 2 * l - n2 in
    let h := h0 / 60 in
    (hue_to_rgb n1 n2 (h + 2), hue_to_rgb n1 n2 h, hue_to_rgb n1 n2 (h - 2)).

(** [Color::to_hsla]. *)
Definition to_hsla (c : Color) : Q * Q * Q * Q :=
  let '(h, s, l) := rgb_to_hsl (r c) (g c) (b c) in (h, s, l, a c).

(** [Color::from_hsla]: hue normalised, saturation, lightness and alpha
    clamped to [0, 1]. *)
Definition from_hsla (h s l a0 : Q) : Color :=
  let '(r0, g0, b0) := hsl_to_rgb (normalize_angle h) (clamp0_1 s) (clamp0_1 l) in
  Color_new r0 g0 b0 (clamp0_1 a0).

(* ------------------------------------------------------------------ *)
(** ** [expression.rs]: values and expressions *)

Module NumberType.
Inductive t : Type := None | Pixels | Percentage.

(** [NumberType::to_css]. *)
Definition to_css (self : t) (value : Q) : string :=
  match self with
  | None => display_q value
  | Pixels => display_q value ++ "px"
  | Percentage => display_q value ++ "%"
  end.

(** [NumberType::to_rust]: percentages as fractions, always with a [.]. *)
Definition to_rust (self : t) (value : Q) : string :=
  let value := match self with
               | Percentage => Qred (value * (1 # 100))
               | _ => value
               end in
  let x := display_q value in
  if str_contains "." x then x else x ++ ".".
End NumberType.

Module Value.
Inductive t : Type :=
| Color (c : Color)
| Number (v : Q) (typ : NumberType.t)
| Any (s : string).

Definition to_css (self : t) : string :=
  match self with
  | Color val => to_hex_string val
  | Number val typ => NumberType.to_css typ val
  | Any val => val
  end.

Definition to_rust (self : t) : string :=
  match self with
  | Color val => dq ++ to_hex_string val ++ dq
  | Number val typ => NumberType.to_rust typ val
  | Any val => dq ++ val ++ dq
  end.

Definition to_rust_type (self : t) : string :=
  match self with
  | Number _ _ => "f32"
  | _ => "&'static str"
  end.

Definition to_rust_string (self : t) : string :=
  match self with
  | Number _ _ => dq ++ to_rust self ++ dq
  | _ => to_rust self
  end.
End Value.

Module Expression.
Inductive t : Type :=
| Ref (path : list string)
| Mul (x y : t)
| Div (x y : t)
| Value (v : Value.t).
End Expression.

(* ------------------------------------------------------------------ *)
(** ** [extensions.rs] (core crate): the declared extension *)

Module StudioTokensModify.
Inductive t : Type := Lighten | Darken | Alpha | Other.
End StudioTokensModify.

Module StudioTokensSpace.
Inductive t : Type := Hsl | Lch | Other.
End StudioTokensSpace.

Inductive StudioTokensExtension : Type :=
| Modify (type_ : StudioTokensModify.t) (value : string) (space : StudioTokensSpace.t).

Inductive Extensions : Type :=
| StudioTokens (ext : StudioTokensExtension).

(* ------------------------------------------------------------------ *)
(** ** [lib.rs] (core crate): the token tree *)

Module TokenType.
Inductive t : Type := None | Border | Typography | Other.
End TokenType.

(** A [HashMap<String, Expression>]: its entries, in insertion order. *)
Definition HashMap : Type := list (string * Expression.t).

Inductive TokenValue : Type :=
| Single (e : Expression.t)
| Dict (d : HashMap).

(** [TokenOrGroup]; a [Group] is an [IndexMap], kept as its entry list in
    insertion order. *)
Inductive TokenOrGroup : Type :=
| Token (value : TokenValue) (type_ : TokenType.t) (extensions : option Extensions)
| Group (group : list (string * TokenOrGroup)).

Record DesignTokens : Type := mkDesignTokens {
  file_name : option string;
  body : TokenOrGroup
}.

(** [TokenOrGroup::get_value]: descend one path segment per group. *)
Fixpoint TokenOrGroup_get_value (self : TokenOrGroup) (path : list string)
  : Run (option TokenValue) :=
  match self with
  | Token value _ _ =>
      match path with
      | [] => Ret (Some value)
      | _ :: _ => Panic AssertEqFailed
      end
  | Group group =>
      match path with
      | [] => Panic IndexOutOfBounds
      | key :: rest =>
          (fix get (l : list (string * TokenOrGroup)) : Run (option TokenValue) :=
             match l with
             | [] => Ret None
             | (k, child) :: l' =>
                 if String.eqb key k then TokenOrGroup_get_value child rest else get l'
             end) group
      end
  end.

(** [DesignTokens::get_value]. *)
Definition DesignTokens_get_value (tokens : DesignTokens) (path : list string)
  : Run (option TokenValue) :=
  TokenOrGroup_get_value (body tokens) path.

(** The arms of [Expression::get_value] for [Mul] and [Div]. *)
Definition mul_values (vx vy : Value.t) : Run Value.t :=
  match vx, vy with
  | Value.Color ca, Value.Color cb =>
      Ret (Value.Color (mkColor (Qred (r ca * r cb)) (Qred (g ca * g cb))
                                (Qred (b ca * b cb)) (Qred (a ca * a cb))))
  | Value.Number na typ, Value.Number nb _ => Ret (Value.Number (f32_mul na nb) typ)
  | _, _ => Panic NotHandled
  end.

Definition div_values (vx vy : Value.t) : Run Value.t :=
  match vx, vy with
  | Value.Color ca, Value.Color cb =>
      Ret (Value.Color (mkColor (Qred (r ca / r cb)) (Qred (g ca / g cb))
                                (Qred (b ca / b cb)) (Qred (a ca / a cb))))
  | Value.Number na typ, Value.Number nb _ => Ret (Value.Number (f32_div na nb) typ)
  | _, _ => Panic Todo
  end.

(** [Expression::get_value], with [TokenValue::get_value] inlined at the
    reference case. Each call spends one unit of [fuel]; the operands of
    [Mul] and [Div] are evaluated left to right. *)
Fixpoint get_value (fuel : nat) (tokens : DesignTokens) (self : Expression.t)
  : Run Value.t :=
  match fuel with
  | O => Diverge
  | S fuel' =>
      match self with
      | Expression.Ref path =>
          tv <- DesignTokens_get_value tokens path ;;
          match tv with
          | None => Panic (NoSuchPath path)
          | Some (Single expr) => get_value fuel' tokens expr
          | Some (Dict _) => Panic CantResolve
          end
      | Expression.Mul x y =>
          vx <- get_value fuel' tokens x ;;
          vy <- get_value fuel' tokens y ;;
          mul_values vx vy
      | Expression.Div x y =>
          vx <- get_value fuel' tokens x ;;
          vy <- get_value fuel' tokens y ;;
          div_values vx vy
      | Expression.Value value => Ret value
      end
  end.

(** [TokenValue::get_value]. *)
Definition TokenValue_get_value (fuel : nat) (tokens : DesignTokens) (self : TokenValue)
  : Run Value.t :=
  match self with
  | Single expr => get_value fuel tokens expr
  | Dict _ => Panic CantResolve
  end.

(* ------------------------------------------------------------------ *)
(** ** [extensions.rs] (core crate): the Modify transform *)

Fixpoint all_digits (s : string) : bool :=
  match s with
  | EmptyString => true
  | String c s' => is_digit c && all_digits s'
  end.

(** [str::parse::<f64>] on a decimal literal
    [sign? (digits ("." digits?)? | "." digits) (("e"|"E") sign? digits)?].
    The spellings [inf], [infinity] and [nan] are read by
    [parse_f64_special]. *)
Definition parse_f64 (s0 : string) : option Q :=
  let '(neg, s1) := match s0 with
                    | String "-" s' => (true, s')
                    | String "+" s' => (false, s')
                    | _ => (false, s0)
                    end in
  let '(int, s2) := span is_digit s1 in
  let '(frac, s3) := match s2 with
                     | String "." s' => span is_digit s'
                     | _ => (EmptyString, s2)
                     end in
  let '(eneg, edigits, ok_exp) :=
    match s3 with
    | EmptyString => (false, EmptyString, true)
    | String e s' =>
        if Ascii.eqb e "e" || Ascii.eqb e "E" then
          let '(en, s4) := match s' with
                           | String "-" s5 => (true, s5)
                           | String "+" s5 => (false, s5)
                           | _ => (false, s')
                           end in
          (en, s4, negb (String.eqb s4 EmptyString) && all_digits s4)
        else (false, EmptyString, false)
    end in
  if negb ok_exp || (String.eqb int EmptyString && String.eqb frac EmptyString) then None
  else
    let m := decimal_value neg int frac in
    let ex := digits_value edigits in
    let scale := inject_Z (10 ^ ex) in
    Some (Qred (if eneg then m / scale else m * scale)).

(** An [f64] amount: a finite value, an infinity ([neg] for -inf) or NaN. *)
Inductive F64 : Type :=
| Fin (q : Q)
| Inf (neg : bool)
| NaN.

(** The non-finite spellings [str::parse::<f64>] accepts after an optional
    sign, in any letter case: [inf], [infinity] and [nan]. *)
Definition parse_f64_special (s0 : string) : option F64 :=
  let '(neg, s1) := match s0 with
                    | String "-" s' => (true, s')
                    | String "+" s' => (false, s')
                    | _ => (false, s0)
                    end in
  let t := to_ascii_lowercase s1 in
  if String.eqb t "inf" || String.eqb t "infinity" then Some (Inf neg)
  else if String.eqb t "nan" then Some NaN
  else None.

(** [str::parse::<f64>]: a decimal literal or a non-finite spelling. *)
Definition str_parse_f64 (s : string) : option F64 :=
  match parse_f64 s with
  | Some q => Some (Fin q)
  | None => parse_f64_special s
  end.

(** IEEE negation, addition, subtraction and multiplication on [F64]. *)
Definition f64_neg (x : F64) : F64 :=
  match x with
  | Fin p => Fin (Qred (- p))
  | Inf n => Inf (negb n)
  | NaN => NaN
  end.

Definition f64_add (x y : F64) : F64 :=
  match x, y with
  | Fin p, Fin q => Fin (Qred (p + q))
  | NaN, _ | _, NaN => NaN
  | Inf n, Inf m => if Bool.eqb n m then Inf n else NaN
  | Inf n, Fin _ | Fin _, Inf n => Inf n
  end.

Definition f64_sub (x y : F64) : F64 := f64_add x (f64_neg y).

Definition f64_mul (x y : F64) : F64 :=
  match x, y with
  | Fin p, Fin q => Fin (Qred (p * q))
  | NaN, _ | _, NaN => NaN
  | Inf n, Inf m => Inf (xorb n m)
  | Inf n, Fin p | Fin p, Inf n => if feq p 0 then NaN else Inf (xorb n (flt p 0))
  end.

(** [clamp0_1] of [csscolorparser] ([if t < 0 {0} else if t > 1 {1} else {t}])
    on an [f64]: NaN fails both tests and passes through. *)
Definition clamp0_1_f64 (t : F64) : F64 :=
  match t with
  | Fin q => Fin (clamp0_1 q)
  | Inf true => Fin 0
  | Inf false => Fin 1
  | NaN => NaN
  end.

(** [(x * 255.0).round() as u8] on an [f64]: [as] saturates +inf to 255 and
    sends -inf and NaN to 0. *)
Definition channel_u8_f64 (x : F64) : Z :=
  match x with
  | Fin q => channel_u8 q
  | Inf false => 255
  | Inf true => 0
  | NaN => 0
  end.

(** A [Color] keeps its channels in [Q]: a non-finite channel is stored as
    the finite channel with the same byte ([channel_u8 (f64_channel x) =
    channel_u8_f64 x]). The renderers read the colour an extension computes
    only through [to_hex_string], which sees nothing but these bytes. *)
Definition f64_channel (x : F64) : Q :=
  match x with
  | Fin q => q
  | Inf false => 1
  | Inf true => 0
  | NaN => 0
  end.

(** [Color::from_hsla] at an [f64] lightness. After [clamp0_1] the lightness
    is finite or NaN; at NaN both branches of [hsl_to_rgb] compute every
    channel from it, so every channel is NaN. *)
Definition from_hsla_f64 (h s : Q) (l : F64) (a0 : Q) : Color :=
  match clamp0_1_f64 l with
  | Fin l' => from_hsla h s l' a0
  | l' => Color_new (f64_channel l') (f64_channel l') (f64_channel l') (clamp0_1 a0)
  end.

(** [Color::to_lch] followed by [Color::from_lch] with a new alpha: in exact
    arithmetic the Lab/LCH round trip gives back the same r, g, b, so only
    the alpha channel changes. *)
Definition lch_with_alpha (color : Color) (a2 : Q) : Color :=
  mkColor (r color) (g color) (b color) a2.

(** The new HSL lightness of [to_css] and [to_rust]. *)
Definition hsl_l2 (type_ : StudioTokensModify.t) (l value : Q) : Run Q :=
  match type_ with
  | StudioTokensModify.Lighten => Ret (Qred (l + l * value))
  | StudioTokensModify.Darken => Ret (Qred (l - l * value))
  | _ => Panic InvalidType
  end.

(** The new LCH alpha. *)
Definition lch_a2 (type_ : StudioTokensModify.t) (a0 value : Q) : Run Q :=
  match type_ with
  | StudioTokensModify.Alpha => Ret (Qred (a0 + a0 * value))
  | _ => Panic InvalidType
  end.

(** The new HSL lightness and LCH alpha at an infinite or NaN amount. *)
Definition hsl_l2_f64 (type_ : StudioTokensModify.t) (l : Q) (value : F64) : Run F64 :=
  match type_ with
  | StudioTokensModify.Lighten => Ret (f64_add (Fin l) (f64_mul (Fin l) value))
  | StudioTokensModify.Darken => Ret (f64_sub (Fin l) (f64_mul (Fin l) value))
  | _ => Panic InvalidType
  end.

Definition lch_a2_f64 (type_ : StudioTokensModify.t) (a0 : Q) (value : F64) : Run F64 :=
  match type_ with
  | StudioTokensModify.Alpha => Ret (f64_add (Fin a0) (f64_mul (Fin a0) value))
  | _ => Panic InvalidType
  end.

(** [StudioTokensExtension::to_rust]. *)
Definition StudioTokensExtension_to_rust (self : StudioTokensExtension) (base_value : Value.t)
  : Run Value.t :=
  match self with
  | Modify type_ value space =>
      match str_parse_f64 value with
      | None => Panic UnwrapFailed
      | Some (Fin value) =>
          match base_value with
          | Value.Color color =>
              match space with
              | StudioTokensSpace.Hsl =>
                  let '(h, s, l, a0) := to_hsla color in
                  l2 <- hsl_l2 type_ l value ;;
                  Ret (Value.Color (from_hsla h s l2 a0))
              | StudioTokensSpace.Lch =>
                  a2 <- lch_a2 type_ (a color) value ;;
                  Ret (Value.Color (lch_with_alpha color a2))
              | StudioTokensSpace.Other => Panic Todo
              end
          | _ => Panic UnexpectedBaseValue
          end
      | Some value =>
          match base_value with
          | Value.Color color =>
              match space with
              | StudioTokensSpace.Hsl =>
                  let '(h, s, l, a0) := to_hsla color in
                  l2 <- hsl_l2_f64 type_ l value ;;
                  Ret (Value.Color (from_hsla_f64 h s l2 a0))
              | StudioTokensSpace.Lch =>
                  a2 <- lch_a2_f64 type_ (a color) value ;;
                  Ret (Value.Color (lch_with_alpha color (f64_channel a2)))
              | StudioTokensSpace.Other => Panic Todo
              end
          | _ => Panic UnexpectedBaseValue
          end
      end
  end.

(** [StudioTokensExtension::to_css]. *)
Definition StudioTokensExtension_to_css (self : StudioTokensExtension) (base_value : Value.t)
  : Run string :=
  match self with
  | Modify type_ value space =>
      match str_parse_f64 value with
      | None => Panic UnwrapFailed
      | Some (Fin value) =>
          match base_value with
          | Value.Color color =>
              match space with
              | StudioTokensSpace.Hsl =>
                  let '(h, s, l, a0) := to_hsla color in
                  l2 <- hsl_l2 type_ l value ;;
                  Ret (to_hex_string (from_hsla h s l2 a0))
              | StudioTokensSpace.Lch =>
                  a2 <- lch_a2 type_ (a color) value ;;
                  Ret (to_hex_string (lch_with_alpha color a2))
              | StudioTokensSpace.Other => Panic Todo
              end
          | _ => Panic UnexpectedBaseValue
          end
      | Some value =>
          match base_value with
          | Value.Color color =>
              match space with
              | StudioTokensSpace.Hsl =>
                  let '(h, s, l, a0) := to_hsla color in
                  l2 <- hsl_l2_f64 type_ l value ;;
                  Ret (to_hex_string (from_hsla_f64 h s l2 a0))
              | StudioTokensSpace.Lch =>
                  a2 <- lch_a2_f64 type_ (a color) value ;;
                  Ret (to_hex_string (lch_with_alpha color (f64_channel a2)))
              | StudioTokensSpace.Other => Panic Todo
              end
          | _ => Panic UnexpectedBaseValue
          end
      end
  end.

(** The older root crate [design_tokens] ([src/src/extensions.rs]); its
    [StudioTokensModify] and [StudioTokensSpace] are the same enums. *)
Module V0.
(** [StudioTokensExtension::to_css]: HSL for every space, additive. *)
Definition StudioTokensExtension_to_css (self : StudioTokensExtension) (base_value : Value.t)
  : Run string :=
  match self with
  | Modify type_ value _ =>
      match str_parse_f64 value with
      | None => Panic UnwrapFailed
      | Some (Fin value) =>
          match base_value with
          | Value.Color color =>
              let '(h, s, l, a0) := to_hsla color in
              l2 <- match type_ with
                    | StudioTokensModify.Lighten => Ret (Qred (l + value))
                    | StudioTokensModify.Darken => Ret (Qred (l - value))
                    | _ => Panic InvalidType
                    end ;;
              Ret (to_hex_string (from_hsla h s l2 a0))
          | _ => Panic UnexpectedBaseValue
          end
      | Some value =>
          match base_value with
          | Value.Color color =>
              let '(h, s, l, a0) := to_hsla color in
              l2 <- match type_ with
                    | StudioTokensModify.Lighten => Ret (f64_add (Fin l) value)
                    | StudioTokensModify.Darken => Ret (f64_sub (Fin l) value)
                    | _ => Panic InvalidType
                    end ;;
              Ret (to_hex_string (from_hsla_f64 h s l2 a0))
          | _ => Panic UnexpectedBaseValue
          end
      end
  end.
End V0.

(* ------------------------------------------------------------------ *)
(** ** [lib.rs] (core crate): identifiers and renderers *)

(** [slugify]. Its last step, [deunicode], returns ASCII text without DEL
    unchanged; on such keys (see [ascii_key]) the definition is exact. *)
Definition slugify (s : string) (sep : string) : string :=
  to_ascii_lowercase
    (str_replace " " sep
      (str_replace ")" "_"
        (str_replace "(" "_"
          (str_replace "." "d"
            (str_replace "+" "p"
              (str_replace "," "c" s)))))).

Definition slugify_rs (s : string) : string := slugify s "_".
Definition slugify_css (s : string) : string := slugify s "-".

(** [convert_case] with its default boundaries: [_], [-] and space are
    dropped and split words; a split also falls between lower and upper
    case, between a letter and a digit (either way), and before the last
    capital of an acronym followed by a lower-case letter. *)
Definition is_delim (c : ascii) : bool :=
  Ascii.eqb c "_" || Ascii.eqb c "-" || Ascii.eqb c " ".

Definition boundary (prev c : ascii) (next : option ascii) : bool :=
  (is_lower prev && is_upper c)
  || (is_upper prev && is_digit c) || (is_digit prev && is_upper c)
  || (is_digit prev && is_lower c) || (is_lower prev && is_digit c)
  || (is_upper prev && is_upper c &&
      match next with Some n => is_lower n | None => false end).

Fixpoint split_words (prev : option ascii) (cur : list ascii) (l : list ascii)
  : list (list ascii) :=
  match l with
  | [] => [rev cur]
  | c :: l' =>
      if is_delim c then rev cur :: split_words None [] l'
      else
        let brk := match prev with
                   | Some p => boundary p c (hd_error l')
                   | None => false
                   end in
        if brk then rev cur :: split_words (Some c) [c] l'
        else split_words (Some c) (c :: cur) l'
  end.

Definition words (s : string) : list string :=
  map string_of_list_ascii
    (filter (fun w => negb (Nat.eqb (List.length w) 0))
       (split_words None [] (list_ascii_of_string s))).

(** [to_case(Case::UpperFlat)]: upper-case words joined with nothing. *)
Definition to_case_upper_flat (s : string) : string :=
  join EmptyString (map to_ascii_uppercase (words s)).

(** [to_case(Case::Kebab)]: lower-case words joined with [-]. *)
Definition to_case_kebab (s : string) : string :=
  join "-" (map to_ascii_lowercase (words s)).

Definition css_property (type_ : TokenType.t) (key : string) : string :=
  match type_ with
  | TokenType.Border =>
      if String.eqb key "color" then "border-color"
      else if String.eqb key "width" then "border-width"
      else if String.eqb key "style" then "border-style"
      else to_case_kebab key
  | TokenType.Typography =>
      if String.eqb key "textCase" || String.eqb key "text-case" then "text-transform"
      else if String.eqb key "lineHeight" then "line-height"
      else to_case_kebab key
  | _ => to_case_kebab key
  end.

(** [Expression::to_css]: references become [var(--...)]. *)
Fixpoint Expression_to_css (self : Expression.t) : string :=
  match self with
  | Expression.Ref path => "var(--" ++ join "-" (map slugify_css path) ++ ")"
  | Expression.Mul x y => "calc(" ++ Expression_to_css x ++ " * " ++ Expression_to_css y ++ ")"
  | Expression.Div x y => "calc(" ++ Expression_to_css x ++ " / " ++ Expression_to_css y ++ ")"
  | Expression.Value val => Value.to_css val
  end.

(** [css_value]: a bare number is written in pixels. *)
Definition css_value (value : Expression.t) : string :=
  match value with
  | Expression.Value (Value.Number v NumberType.None) =>
      Expression_to_css (Expression.Value (Value.Number v NumberType.Pixels))
  | _ => Expression_to_css value
  end.

Definition css_entry (type_ : TokenType.t) (key : string) (value : Expression.t) : string :=
  css_property type_ key ++ ": " ++ css_value value ++ ";".

Section Renderers.
(** The iteration order of a [HashMap]: fixed by the process's hasher. *)
Variable iter : HashMap -> list (string * Expression.t).
Variable fuel : nat.
Variable tokens : DesignTokens.

(** [TokenOrGroup::to_css]. *)
Fixpoint TokenOrGroup_to_css (self : TokenOrGroup) (root_class path : string)
  : Run string :=
  match self with
  | Token (Single value) _ extensions =>
      value <- match extensions with
               | Some (StudioTokens ext) =>
                   base <- get_value fuel tokens value ;;
                   StudioTokensExtension_to_css ext base
               | None => Ret (css_value value)
               end ;;
      Ret ("." ++ root_class ++ " { -" ++ path ++ ": " ++ value ++ "; }")
  | Token (Dict dict) type_ _ =>
      let value := join (char_to_string "010")
                     (map (fun kv => css_entry type_ (fst kv) (snd kv)) (iter dict)) in
      match path with
      | EmptyString => Panic IndexOutOfBounds
      | String _ path1 =>
          Ret ("." ++ root_class ++ " ." ++ path1 ++ " {" ++ char_to_string "010"
               ++ value ++ char_to_string "010" ++ "}")
      end
  | Group group =>
      parts <- run_map (fun kv => TokenOrGroup_to_css (snd kv) root_class
                                    (path ++ "-" ++ slugify_css (fst kv))) group ;;
      Ret (join (char_to_string "010") parts)
  end.

(** [TokenOrGroup::to_rust]. *)
Fixpoint TokenOrGroup_to_rust (self : TokenOrGroup) (path : string) : Run string :=
  match self with
  | Token (Single value) _ extensions =>
      value <- match extensions with
               | Some (StudioTokens ext) =>
                   base <- get_value fuel tokens value ;;
                   StudioTokensExtension_to_rust ext base
               | None => get_value fuel tokens value
               end ;;
      Ret ("pub const " ++ path ++ ": " ++ Value.to_rust_type value ++ " = "
           ++ Value.to_rust value ++ ";")
  | Token (Dict dict) _ _ =>
      entries <- run_map (fun kv =>
                    v <- get_value fuel tokens (snd kv) ;;
                    Ret ("(" ++ dq ++ fst kv ++ dq ++ ", " ++ Value.to_rust_string v ++ ")"))
                  (iter dict) ;;
      Ret ("pub const " ++ path ++ ": &'static [(&'static str, &'static str)] = &["
           ++ join ", " entries ++ "];")
  | Group group =>
      parts <- run_map (fun kv =>
                  let key := to_case_upper_flat (slugify_rs (fst kv)) in
                  TokenOrGroup_to_rust (snd kv)
                    (if String.eqb path EmptyString then key else path ++ "_" ++ key)) group ;;
      Ret (join (char_to_string "010") parts)
  end.
End Renderers.

(** [DesignTokens::get_name]. *)
Definition DesignTokens_get_name (self : DesignTokens) : Run string :=
  match file_name self with
  | Some name =>
      match split_on "." name with
      | _ :: second :: _ => Ret second
      | _ => Panic UnwrapFailed
      end
  | None => Ret "ambient"
  end.

Definition DesignTokens_to_css iter fuel (self : DesignTokens) : Run string :=
  name <- DesignTokens_get_name self ;;
  TokenOrGroup_to_css iter fuel self (body self) (slugify_css name) EmptyString.

Definition DesignTokens_to_rust iter fuel (self : DesignTokens) : Run string :=
  TokenOrGroup_to_rust iter fuel self (body self) EmptyString.

(** [DesignTokens::get_name_rust]. *)
Definition DesignTokens_get_name_rust (self : DesignTokens) : Run string :=
  name <- DesignTokens_get_name self ;;
  Ret (to_case_upper_flat (slugify_rs name)).

(** An iteration order is one a [HashMap] can have: a permutation of its
    entries. *)
Definition hm_iter_valid (iter : HashMap -> list (string * Expression.t)) : Prop :=
  forall m, Permutation (iter m) m.

(* ------------------------------------------------------------------ *)
(** ** [expr_parser]: the PEG grammar of token values *)

(** A rule's outcome: success with the rest of the input, failure (the next
    alternative is tried), or a panic raised inside a rule's action. *)
Inductive PRes (A : Type) : Type :=
| POk (x : A) (rest : string)
| PFail
| PPanic (f : Fault).
Arguments POk {A} x rest.
Arguments PFail {A}.
Arguments PPanic {A} f.

(** Ordered choice: [q] is tried only when [p] fails. *)
Definition alt {A} (p q : string -> PRes A) (s : string) : PRes A :=
  match p s with
  | PFail => q s
  | res => res
  end.

(** [rule _ = quiet!{[' ' | '\n' | '\t']*}]. *)
Definition ws_char (c : ascii) : bool :=
  Ascii.eqb c " " || Ascii.eqb c "010" || Ascii.eqb c "009".
Definition ws (s : string) : string := snd (span ws_char s).

(** [rule number() -> f32 = n:$("-"? ['0'..='9']+ "."? ['0'..='9']* )]. *)
Definition number (s : string) : PRes Q :=
  let '(neg, s1) := match s with
                    | String "-" s' => (true, s')
                    | _ => (false, s)
                    end in
  let '(int, s2) := span is_digit s1 in
  if String.eqb int EmptyString then PFail
  else
    let s3 := match s2 with
              | String "." s' => s'
              | _ => s2
              end in
    let '(frac, s4) := span is_digit s3 in
    POk (decimal_value neg int frac) s4.

(** The body of a reference, [$((!"}" !"." [_])* ) ** "."]: segments
    separated by [.], up to the first [}] or the end of the input. *)
Fixpoint ref_segments (s : string) : list string * string :=
  match s with
  | EmptyString => ([EmptyString], EmptyString)
  | String c s' =>
      if Ascii.eqb c "}" then ([EmptyString], s)
      else if Ascii.eqb c "." then
        let '(segs, rest) := ref_segments s' in (EmptyString :: segs, rest)
      else
        let '(segs, rest) := ref_segments s' in
        match segs with
        | [] => ([char_to_string c], rest)
        | w :: ws' => (String c w :: ws', rest)
        end
  end.

(** ["{" v:(...) "}" { Expression::Ref(... split("/") ...) }]. *)
Definition p_ref (s : string) : PRes Expression.t :=
  match s with
  | String "{" s' =>
      let '(segs, rest) := ref_segments s' in
      match rest with
      | String "}" rest' => POk (Expression.Ref (flat_map (split_on "/") segs)) rest'
      | _ => PFail
      end
  | _ => PFail
  end.

(** ["#" v:$(['a'..='z' | 'A'..='Z' | '0'..='9']* )
     { ... csscolorparser::parse(v).unwrap() ... }]. *)
Definition p_color (s : string) : PRes Expression.t :=
  match s with
  | String "#" s' =>
      let '(v, rest) := span is_alnum s' in
      match csscolorparser_parse v with
      | Some c => POk (Expression.Value (Value.Color c)) rest
      | None => PPanic UnwrapFailed
      end
  | _ => PFail
  end.

(** [v:number() "%"]. *)
Definition p_percentage (s : string) : PRes Expression.t :=
  match number s with
  | POk v (String "%" rest) => POk (Expression.Value (Value.Number v NumberType.Percentage)) rest
  | POk _ _ => PFail
  | PFail => PFail
  | PPanic f => PPanic f
  end.

(** [v:number() "px"]. *)
Definition p_pixels (s : string) : PRes Expression.t :=
  match number s with
  | POk v (String "p" (String "x" rest)) =>
      POk (Expression.Value (Value.Number v NumberType.Pixels)) rest
  | POk _ _ => PFail
  | PFail => PFail
  | PPanic f => PPanic f
  end.

(** [v:number()]. *)
Definition p_bare_number (s : string) : PRes Expression.t :=
  match number s with
  | POk v rest => POk (Expression.Value (Value.Number v NumberType.None)) rest
  | PFail => PFail
  | PPanic f => PPanic f
  end.

Definition any_char (c : ascii) : bool :=
  is_alnum c || Ascii.eqb c "#" || Ascii.eqb c "%" || Ascii.eqb c "-"
  || Ascii.eqb c "." || Ascii.eqb c " ".

(** [v:$(['a'..='z' | 'A'..='Z' | '0'..='9' | '#' | '%' | '-' | '.' | ' ']* )]. *)
Definition p_any (s : string) : PRes Expression.t :=
  let '(v, rest) := span any_char s in POk (Expression.Value (Value.Any v)) rest.

(** The terminal level of [precedence!], alternatives in source order. *)
Definition atom : string -> PRes Expression.t :=
  alt p_ref (alt p_color (alt p_percentage (alt p_pixels (alt p_bare_number p_any)))).

(** [_ op _ y:@]. *)
Definition infix (op : ascii) (s : string) : PRes Expression.t :=
  match ws s with
  | String c s' => if Ascii.eqb c op then atom (ws s') else PFail
  | EmptyString => PFail
  end.

(** The left-associative operator level of [precedence!]; every round
    consumes an operator character, so [n] = the length of the input is
    enough rounds. *)
Fixpoint expr_loop (n : nat) (x : Expression.t) (s : string) : PRes Expression.t :=
  match n with
  | O => POk x s
  | S n' =>
      match infix "*" s with
      | POk y rest => expr_loop n' (Expression.Mul x y) rest
      | PPanic f => PPanic f
      | PFail =>
          match infix "/" s with
          | POk y rest => expr_loop n' (Expression.Div x y) rest
          | PPanic f => PPanic f
          | PFail => POk x s
          end
      end
  end.

Definition expr_prec (s : string) : PRes Expression.t :=
  match atom s with
  | POk x rest => expr_loop (String.length rest) x rest
  | PFail => PFail
  | PPanic f => PPanic f
  end.

(** Result of [expr_parser::expr]: [Err] is the [ParseError] that
    [ExpressionVisitor::visit_str] reports as "Invalid expression"; a panic
    inside the parser is not an [Err]. *)
Inductive ParseResult : Type :=
| ParseOk (e : Expression.t)
| ParseError
| ParsePanic (f : Fault).

(** [expr_parser::expr]: the whole input must be consumed. *)
Definition expr (input : string) : ParseResult :=
  match expr_prec input with
  | POk e EmptyString => ParseOk e
  | POk _ (String _ _) => ParseError
  | PFail => ParseError
  | PPanic f => ParsePanic f
  end.

(** The cases of the repository's parser test. *)
Example expr_test_ref : expr "{hello.world}" = ParseOk (Expression.Ref ["hello"; "world"]).
Proof. vm_compute. reflexivity. Qed.

Example expr_test_color :
  expr "#ff00ff" = ParseOk (Expression.Value (Value.Color (mkColor 1 0 1 1))).
Proof. vm_compute. reflexivity. Qed.

Example expr_test_any :
  expr "ABC Diatype Variable" = ParseOk (Expression.Value (Value.Any "ABC Diatype Variable")).
Proof. vm_compute. reflexivity. Qed.

Example expr_test_decimal :
  expr "232.8300018310547" =
  ParseOk (Expression.Value (Value.Number (Qred (2328300018310547 # 10000000000000)) NumberType.None)).
Proof. vm_compute. reflexivity. Qed.

Example expr_test_px :
  expr "2px" = ParseOk (Expression.Value (Value.Number 2 NumberType.Pixels)).
Proof. vm_compute. reflexivity. Qed.

Example expr_test_mul :
  expr "{x} * {y}" = ParseOk (Expression.Mul (Expression.Ref ["x"]) (Expression.Ref ["y"])).
Proof. vm_compute. reflexivity. Qed.

Example expr_test_div :
  expr "{x}/5" =
  ParseOk (Expression.Div (Expression.Ref ["x"]) (Expression.Value (Value.Number 5 NumberType.None))).
Proof. vm_compute. reflexivity. Qed.

(* ================================================================== *)
(** * Properties *)

(** More fuel never changes a finished evaluation: a result obtained with
    some fuel is the program's result. *)
Lemma get_value_mono :
  forall n tokens e, get_value n tokens e <> Diverge ->
  forall m, (n <= m)%nat -> get_value m tokens e = get_value n tokens e.
Proof.
  induction n as [|n IH]; intros tokens e Hd m Hle; [simpl in Hd; congruence|].
  destruct m as [|m]; [lia|].
  assert (Hle' : (n <= m)%nat) by lia.
  assert (Hsub : forall e', get_value m tokens e' = get_value n tokens e'
                            \/ get_value n tokens e' = Diverge).
  { intros e'. destruct (get_value n tokens e') eqn:E; [left|left|right; reflexivity];
      rewrite <- E; apply IH; auto; rewrite E; discriminate. }
  destruct e as [path|x y|x y|v]; simpl in *; auto.
  - destruct (DesignTokens_get_value tokens path) as [[[e'|d]|]|f|]; simpl in *; auto.
  - destruct (Hsub x) as [Hx|Hx]; rewrite ?Hx in *; [|simpl in Hd; congruence].
    destruct (get_value n tokens x); simpl in *; auto.
    destruct (Hsub y) as [Hy|Hy]; rewrite ?Hy in *; [auto|simpl in Hd; congruence].
  - destruct (Hsub x) as [Hx|Hx]; rewrite ?Hx in *; [|simpl in Hd; congruence].
    destruct (get_value n tokens x); simpl in *; auto.
    destruct (Hsub y) as [Hy|Hy]; rewrite ?Hy in *; [auto|simpl in Hd; congruence].
Qed.

(** The document of the resolver example: [x] is [{y}], [y] is [5]. *)
Definition xy_doc : DesignTokens :=
  mkDesignTokens None
    (Group [("x", Token (Single (Expression.Ref ["y"])) TokenType.Other None);
            ("y", Token (Single (Expression.Value (Value.Number 5 NumberType.None)))
                    TokenType.Other None)]).

(** C7: evaluating a reference looks the path up and evaluates the target
    token's expression in turn; with [x = {y}] and [y = 5], resolving [x]
    gives [Number(5, none)]. *)
Theorem get_value_ref_transitive :
  (forall fuel tokens path e,
      DesignTokens_get_value tokens path = Ret (Some (Single e)) ->
      get_value (S fuel) tokens (Expression.Ref path) = get_value fuel tokens e) /\
  (forall fuel, (3 <= fuel)%nat ->
      get_value fuel xy_doc (Expression.Ref ["x"]) = Ret (Value.Number 5 NumberType.None)).
Proof.
  split.
  - intros fuel tokens path e H. simpl. rewrite H. reflexivity.
  - intros fuel H. destruct fuel as [|[|[|fuel]]]; try lia. reflexivity.
Qed.

Lemma get_value_ref_transitive_witness :
  get_value 3 xy_doc (Expression.Ref ["x"]) = get_value 2 xy_doc (Expression.Ref ["y"]) /\
  get_value 3 xy_doc (Expression.Ref ["x"]) = Ret (Value.Number 5 NumberType.None).
Proof.
  split.
  - apply (proj1 get_value_ref_transitive 2%nat xy_doc ["x"] (Expression.Ref ["y"])).
    reflexivity.
  - apply (proj2 get_value_ref_transitive 3%nat). lia.
Defined.

(** C5: on two numbers, [Mul] and [Div] combine the magnitudes and keep
    the left operand's unit, whatever the right one's; [2px * 3] is [6px]. *)
Theorem number_arith_left_unit :
  (forall fuel tokens x y na ua nb ub,
      get_value fuel tokens x = Ret (Value.Number na ua) ->
      get_value fuel tokens y = Ret (Value.Number nb ub) ->
      get_value (S fuel) tokens (Expression.Mul x y) = Ret (Value.Number (f32_mul na nb) ua) /\
      get_value (S fuel) tokens (Expression.Div x y) = Ret (Value.Number (f32_div na nb) ua)) /\
  (forall fuel tokens, (2 <= fuel)%nat ->
      get_value fuel tokens
        (Expression.Mul (Expression.Value (Value.Number 2 NumberType.Pixels))
                        (Expression.Value (Value.Number 3 NumberType.None)))
      = Ret (Value.Number 6 NumberType.Pixels)).
Proof.
  split.
  - intros fuel tokens x y na ua nb ub Hx Hy. simpl. rewrite Hx, Hy. split; reflexivity.
  - intros fuel tokens H. destruct fuel as [|[|fuel]]; try lia. reflexivity.
Qed.

Lemma number_arith_left_unit_witness :
  get_value 3 xy_doc (Expression.Mul (Expression.Ref ["y"])
                        (Expression.Value (Value.Number 2 NumberType.Percentage)))
    = Ret (Value.Number 10 NumberType.None) /\
  get_value 2 xy_doc
    (Expression.Mul (Expression.Value (Value.Number 2 NumberType.Pixels))
                    (Expression.Value (Value.Number 3 NumberType.None)))
    = Ret (Value.Number 6 NumberType.Pixels).
Proof.
  split.
  - apply (proj1 (proj1 number_arith_left_unit 2%nat xy_doc (Expression.Ref ["y"])
             (Expression.Value (Value.Number 2 NumberType.Percentage))
             5 NumberType.None 2 NumberType.Percentage eq_refl eq_refl)).
  - apply (proj2 number_arith_left_unit 2%nat xy_doc). lia.
Defined.

(** The end-to-end document: [Color.Brand] is ["#ff00ff"], [Color.Accent]
    is ["{Color.Brand}"]; ["none"] is not a renamed [TokenType] variant, so
    it deserializes to [Other]. *)
Definition brand_expr : Expression.t := Expression.Value (Value.Color (mkColor 1 0 1 1)).
Definition accent_expr : Expression.t := Expression.Ref ["Color"; "Brand"].

Definition brand_doc : DesignTokens :=
  mkDesignTokens None
    (Group [("Color",
             Group [("Brand", Token (Single brand_expr) TokenType.Other None);
                    ("Accent", Token (Single accent_expr) TokenType.Other None)])]).

Definition nl : string := char_to_string "010".

(** C6: the stylesheet binds [Accent] to [var(--color-brand)], a live lookup
    of the property [--color-brand] that [Brand] declares, while the
    constants give [Accent] the resolved literal ["#ff00ff"]. *)
Theorem end_to_end_brand_accent :
  expr "#ff00ff" = ParseOk brand_expr /\
  expr "{Color.Brand}" = ParseOk accent_expr /\
  (forall iter fuel, (3 <= fuel)%nat ->
     DesignTokens_to_css iter fuel brand_doc =
       Ret (".ambient { --color-brand: #ff00ff; }" ++ nl ++
            ".ambient { --color-accent: var(--color-brand); }") /\
     DesignTokens_to_rust iter fuel brand_doc =
       Ret ("pub const COLOR_BRAND: &'static str = " ++ dq ++ "#ff00ff" ++ dq ++ ";" ++ nl ++
            "pub const COLOR_ACCENT: &'static str = " ++ dq ++ "#ff00ff" ++ dq ++ ";")).
Proof.
  split; [vm_compute; reflexivity|].
  split; [vm_compute; reflexivity|].
  intros iter fuel H. destruct fuel as [|[|[|fuel]]]; try lia.
  split; reflexivity.
Qed.

Lemma end_to_end_brand_accent_witness :
  DesignTokens_to_css (fun m => m) 3 brand_doc =
    Ret (".ambient { --color-brand: #ff00ff; }" ++ nl ++
         ".ambient { --color-accent: var(--color-brand); }") /\
  DesignTokens_to_rust (fun m => m) 3 brand_doc =
    Ret ("pub const COLOR_BRAND: &'static str = " ++ dq ++ "#ff00ff" ++ dq ++ ";" ++ nl ++
         "pub const COLOR_ACCENT: &'static str = " ++ dq ++ "#ff00ff" ++ dq ++ ";").
Proof.
  apply (proj2 (proj2 end_to_end_brand_accent) (fun m => m) 3%nat). lia.
Defined.

(** The body of a reference without [}]: its [.]-separated segments. *)
Lemma ref_segments_app :
  forall s rest, str_contains "}" s = false ->
  ref_segments (s ++ String "}" rest) = (split_on "." s, String "}" rest).
Proof.
  induction s as [|c s IH]; intros rest H; [reflexivity|].
  cbn [str_contains] in H. apply orb_false_iff in H as [Hc Hs].
  rewrite Ascii.eqb_sym in Hc.
  cbn [append ref_segments split_on]. rewrite Hc, (IH rest Hs).
  destruct (Ascii.eqb c "."); [reflexivity|].
  destruct (split_on "." s); reflexivity.
Qed.

(** C8: a reference literal [{s}] parses to the path obtained by splitting
    [s] on [.] and each piece on [/]; [{a.b}] and [{a/b}] both give
    [["a"; "b"]]. *)
Theorem ref_path_flattening :
  (forall s, str_contains "}" s = false ->
     expr ("{" ++ s ++ "}") = ParseOk (Expression.Ref (flat_map (split_on "/") (split_on "." s)))) /\
  expr "{a.b}" = ParseOk (Expression.Ref ["a"; "b"]) /\
  expr "{a/b}" = ParseOk (Expression.Ref ["a"; "b"]).
Proof.
  split; [|split; vm_compute; reflexivity].
  intros s H.
  unfold expr, expr_prec, atom, alt, p_ref. cbn [append].
  rewrite (ref_segments_app s EmptyString H). reflexivity.
Qed.

Lemma ref_path_flattening_witness :
  expr ("{" ++ "Color.Brand/Dark" ++ "}") = ParseOk (Expression.Ref ["Color"; "Brand"; "Dark"]).
Proof.
  apply (proj1 ref_path_flattening "Color.Brand/Dark"). reflexivity.
Defined.

(** The terminal alternatives of [expr], in source order. *)
Definition terminal_alternatives : list (string -> PRes Expression.t) :=
  [p_ref; p_color; p_percentage; p_pixels; p_bare_number; p_any].

(** The first alternative that does not fail decides. *)
Fixpoint first_match {A} (ps : list (string -> PRes A)) (s : string) : PRes A :=
  match ps with
  | [] => PFail
  | p :: ps' =>
      match p s with
      | PFail => first_match ps' s
      | res => res
      end
  end.

(** C9: a terminal is parsed by the first of reference, colour, percentage,
    pixels, bare number and opaque text that matches; [90%] and [-90%] are
    percentages although the opaque rule alone would take the whole text. *)
Theorem terminal_order :
  (forall s, atom s = first_match terminal_alternatives s) /\
  expr "90%" = ParseOk (Expression.Value (Value.Number 90 NumberType.Percentage)) /\
  expr "-90%" = ParseOk (Expression.Value (Value.Number (-90) NumberType.Percentage)) /\
  p_any "90%" = POk (Expression.Value (Value.Any "90%")) EmptyString /\
  p_any "-90%" = POk (Expression.Value (Value.Any "-90%")) EmptyString.
Proof.
  split; [|repeat split; vm_compute; reflexivity].
  intros s. unfold atom, alt, terminal_alternatives. simpl.
  destruct (p_ref s); auto. destruct (p_color s); auto.
  destruct (p_percentage s); auto. destruct (p_pixels s); auto.
  destruct (p_bare_number s); auto. destruct (p_any s); auto.
Qed.

(** C2: after [#], the colour rule unwraps [csscolorparser::parse]; text
    that is no colour makes the parser panic, while a failed number
    conversion (the [{? }] action of [number]) is an ordinary failure. *)
Theorem hash_non_color_panics :
  expr "#zz" = ParsePanic UnwrapFailed /\
  expr "#" = ParsePanic UnwrapFailed /\
  expr "{x} * #12345" = ParsePanic UnwrapFailed /\
  expr "#abc" = ParseOk (Expression.Value (Value.Color (mkColor (2 # 3) (11 # 15) (4 # 5) 1))) /\
  expr "-}" = ParseError.
Proof. repeat split; vm_compute; reflexivity. Qed.

(** A set of expressions on which evaluation keeps demanding a member of
    the set: a reference whose target token's expression is in the set,
    or an operation whose left operand is in it, or whose right operand is
    in it and whose left operand never panics. A reference cycle is such a
    set. *)
Definition demands_within (tokens : DesignTokens) (P : Expression.t -> Prop) : Prop :=
  forall e, P e ->
    (exists path e', e = Expression.Ref path /\
       DesignTokens_get_value tokens path = Ret (Some (Single e')) /\ P e')
    \/ (exists x y, (e = Expression.Mul x y \/ e = Expression.Div x y) /\ P x)
    \/ (exists x y, (e = Expression.Mul x y \/ e = Expression.Div x y) /\
          (forall n f, get_value n tokens x <> Panic f) /\ P y).

(** C1 (as amended): evaluation that enters such a set never returns, at
    any depth: there is no cycle check and no fault is reported. *)
Theorem reference_cycle_diverges :
  forall tokens P, demands_within tokens P ->
  forall e, P e -> forall fuel, get_value fuel tokens e = Diverge.
Proof.
  intros tokens P HP e He fuel. revert e He.
  induction fuel as [|fuel IH]; intros e He; [reflexivity|].
  destruct (HP e He) as [[path [e' [-> [Hl He']]]]
                        |[[x [y [[-> | ->] Hx]]]|[x [y [[-> | ->] [Hnp Hy]]]]]];
    cbn [get_value].
  - rewrite Hl. cbn [bind]. apply IH; exact He'.
  - rewrite (IH x Hx). reflexivity.
  - rewrite (IH x Hx). reflexivity.
  - destruct (get_value fuel tokens x) eqn:E; cbn [bind].
    + rewrite (IH y Hy). reflexivity.
    + exfalso. exact (Hnp fuel f E).
    + reflexivity.
  - destruct (get_value fuel tokens x) eqn:E; cbn [bind].
    + rewrite (IH y Hy). reflexivity.
    + exfalso. exact (Hnp fuel f E).
    + reflexivity.
Qed.

(** The two-token cycle: [a] is [{b}] and [b] is [{a}]. *)
Definition cycle_doc : DesignTokens :=
  mkDesignTokens None
    (Group [("a", Token (Single (Expression.Ref ["b"])) TokenType.Other None);
            ("b", Token (Single (Expression.Ref ["a"])) TokenType.Other None)]).

Lemma reference_cycle_diverges_witness :
  get_value 50 cycle_doc (Expression.Ref ["b"]) = Diverge.
Proof.
  apply (reference_cycle_diverges cycle_doc
           (fun e => e = Expression.Ref ["a"] \/ e = Expression.Ref ["b"])).
  - intros e [-> | ->]; left.
    + exists ["a"], (Expression.Ref ["b"]). split; [reflexivity|split; [reflexivity|auto]].
    + exists ["b"], (Expression.Ref ["a"]). split; [reflexivity|split; [reflexivity|auto]].
  - right. reflexivity.
Defined.

Lemma cycle_doc_diverges :
  forall fuel, get_value fuel cycle_doc (Expression.Ref ["a"]) = Diverge /\
               get_value fuel cycle_doc (Expression.Ref ["b"]) = Diverge.
Proof.
  induction fuel as [|fuel [IHa IHb]]; [split; reflexivity|].
  split; cbn [get_value]; [exact IHb|exact IHa].
Qed.

(** C1 fails: entering the cycle at [a] (and likewise at [b]), evaluation
    finishes at no depth, so no fault of any kind is reported. *)
Lemma cycle_no_fault_reported :
  ~ (exists fuel, get_value fuel cycle_doc (Expression.Ref ["a"]) <> Diverge) /\
  ~ (exists fuel, get_value fuel cycle_doc (Expression.Ref ["b"]) <> Diverge).
Proof.
  split; intros [fuel H]; apply H; apply (cycle_doc_diverges fuel).
Qed.

(** A border token whose [value] object lists [style] before [width]. *)
Definition border_doc : DesignTokens :=
  mkDesignTokens None
    (Group [("Border",
             Token (Dict [("style", Expression.Value (Value.Any "solid"));
                          ("width", Expression.Value (Value.Number 1 NumberType.Pixels))])
                   TokenType.Border None)]).

(** A [(key, value)] entry of a composite constant. *)
Definition pair_text (k : string) (v : Value.t) : string :=
  "(" ++ dq ++ k ++ dq ++ ", " ++ Value.to_rust_string v ++ ")".

(** C3 fails: the [HashMap] may iterate [width] first, and the constant
    then lists [width] before [style], against the document order. *)
Lemma dict_order_not_document_order :
  hm_iter_valid (@rev (string * Expression.t)) /\
  DesignTokens_to_rust (@rev (string * Expression.t)) 2 border_doc =
    Ret ("pub const BORDER: &'static [(&'static str, &'static str)] = &["
         ++ pair_text "width" (Value.Number 1 NumberType.Pixels) ++ ", "
         ++ pair_text "style" (Value.Any "solid") ++ "];") /\
  pair_text "width" (Value.Number 1 NumberType.Pixels) =
    "(" ++ dq ++ "width" ++ dq ++ ", " ++ dq ++ "1." ++ dq ++ ")".
Proof.
  split; [intros m; apply Permutation_sym, Permutation_rev|].
  split; reflexivity.
Qed.

Lemma run_map_bind_ret :
  forall {A B C} (g : A -> Run B) (h : A -> B -> C) l ys,
    run_map (fun x => v <- g x ;; Ret (h x v)) l = Ret ys ->
    exists vs, Forall2 (fun x v => g x = Ret v) l vs /\
               ys = map (fun p => h (fst p) (snd p)) (combine l vs).
Proof.
  intros A B C g h l. induction l as [|x l IH]; intros ys H.
  - simpl in H. inversion H. exists []. split; [constructor|reflexivity].
  - cbn [run_map] in H. destruct (g x) as [v| |] eqn:Eg; cbn [bind] in H; try discriminate.
    destruct (run_map (fun x0 => v0 <- g x0 ;; Ret (h x0 v0)) l) as [ys'| |] eqn:Er;
      cbn [bind] in H; try discriminate.
    inversion H; subst.
    destruct (IH ys' eq_refl) as [vs [Hf ->]].
    exists (v :: vs). split; [constructor; auto|reflexivity].
Qed.

(** C3 (as amended): a composite constant lists the token's entries in
    the [HashMap]'s iteration order, some permutation of the entries, each
    with its resolved value. *)
Theorem dict_constant_in_hashmap_order :
  forall iter, hm_iter_valid iter ->
  forall fuel tokens dict type_ ext path s,
    TokenOrGroup_to_rust iter fuel tokens (Token (Dict dict) type_ ext) path = Ret s ->
    exists order vals,
      Permutation order dict /\
      Forall2 (fun kv v => get_value fuel tokens (snd kv) = Ret v) order vals /\
      s = "pub const " ++ path ++ ": &'static [(&'static str, &'static str)] = &[" ++
          join ", " (map (fun p => pair_text (fst (fst p)) (snd p)) (combine order vals))
          ++ "];".
Proof.
  intros iter Hiter fuel tokens dict type_ ext path s H.
  cbn [TokenOrGroup_to_rust] in H.
  destruct (run_map _ (iter dict)) as [entries| |] eqn:E; cbn [bind] in H; try discriminate.
  destruct (run_map_bind_ret (fun kv => get_value fuel tokens (snd kv))
              (fun kv v => pair_text (fst kv) v) (iter dict) entries E) as [vals [Hf He]].
  exists (iter dict), vals. split; [apply Hiter|]. split; [exact Hf|].
  inversion H. subst entries. reflexivity.
Qed.

Lemma dict_constant_in_hashmap_order_witness :
  exists order vals,
    Permutation order [("style", Expression.Value (Value.Any "solid"));
                       ("width", Expression.Value (Value.Number 1 NumberType.Pixels))] /\
    Forall2 (fun kv v => get_value 1 border_doc (snd kv) = Ret v) order vals /\
    "pub const BORDER: &'static [(&'static str, &'static str)] = &["
      ++ pair_text "width" (Value.Number 1 NumberType.Pixels) ++ ", "
      ++ pair_text "style" (Value.Any "solid") ++ "];" =
    "pub const " ++ "BORDER" ++ ": &'static [(&'static str, &'static str)] = &[" ++
      join ", " (map (fun p => pair_text (fst (fst p)) (snd p)) (combine order vals)) ++ "];".
Proof.
  refine (dict_constant_in_hashmap_order (@rev (string * Expression.t)) _ 1 border_doc
            [("style", Expression.Value (Value.Any "solid"));
             ("width", Expression.Value (Value.Number 1 NumberType.Pixels))]
            TokenType.Border None "BORDER" _ _).
  - intros m. apply Permutation_sym, Permutation_rev.
  - reflexivity.
Defined.

(** [#666666] (lightness 0.4) and [#999999] (lightness 0.6). *)
Definition gray_666 : Color := mkColor (2 # 5) (2 # 5) (2 # 5) 1.
Definition gray_999 : Color := mkColor (3 # 5) (3 # 5) (3 # 5) 1.

(** C4 fails: the root crate's HSL lighten is additive (factor 0.5 on
    lightness 0.4 gives lightness 46/51, not 0.6), and in the core crate
    the new lightness is clamped to [0, 1] (factor 1.0 on lightness 0.6
    gives white, lightness 1, not 1.2). *)
Lemma hsl_lighten_not_l_plus_lf :
  csscolorparser_parse "#666666" = Some gray_666 /\
  to_hsla gray_666 = (0, 0, 2 # 5, 1) /\
  V0.StudioTokensExtension_to_css
    (Modify StudioTokensModify.Lighten "0.5" StudioTokensSpace.Hsl) (Value.Color gray_666)
    = Ret "#e6e6e6" /\
  option_map to_hsla (csscolorparser_parse "#e6e6e6") = Some (0, 0, 46 # 51, 1) /\
  Qeq_bool (46 # 51) (3 # 5) = false /\
  to_hsla gray_999 = (0, 0, 3 # 5, 1) /\
  StudioTokensExtension_to_rust
    (Modify StudioTokensModify.Lighten "1.0" StudioTokensSpace.Hsl) (Value.Color gray_999)
    = Ret (Value.Color (mkColor 1 1 1 1)) /\
  to_hsla (mkColor 1 1 1 1) = (0, 0, 1, 1).
Proof. vm_compute. repeat split. Qed.

(** The colour a transform produced, if it produced one. *)
Definition result_color (res : Run Value.t) : option Color :=
  match res with
  | Ret (Value.Color c) => Some c
  | _ => None
  end.

(** C4 (as amended): in the core crate, HSL lighten/darken rebuild the
    colour from hue, saturation, alpha and lightness [l + l*f] / [l - l*f]
    (clamped to [0, 1] by [from_hsla]), in both renderers; the root crate
    uses [l + f] / [l - f] for every space. For instance factor 0.5 on
    (hue 0, saturation 1/3, lightness 3/8, alpha 1/2) gives
    (0, 1/3, 9/16, 1/2). *)
Theorem hsl_lightness_transform :
  (forall value f color h s l a0,
    parse_f64 value = Some f -> to_hsla color = (h, s, l, a0) ->
    StudioTokensExtension_to_rust (Modify StudioTokensModify.Lighten value StudioTokensSpace.Hsl)
      (Value.Color color) = Ret (Value.Color (from_hsla h s (Qred (l + l * f)) a0)) /\
    StudioTokensExtension_to_rust (Modify StudioTokensModify.Darken value StudioTokensSpace.Hsl)
      (Value.Color color) = Ret (Value.Color (from_hsla h s (Qred (l - l * f)) a0)) /\
    StudioTokensExtension_to_css (Modify StudioTokensModify.Lighten value StudioTokensSpace.Hsl)
      (Value.Color color) = Ret (to_hex_string (from_hsla h s (Qred (l + l * f)) a0)) /\
    StudioTokensExtension_to_css (Modify StudioTokensModify.Darken value StudioTokensSpace.Hsl)
      (Value.Color color) = Ret (to_hex_string (from_hsla h s (Qred (l - l * f)) a0)) /\
    (forall space,
      V0.StudioTokensExtension_to_css (Modify StudioTokensModify.Lighten value space)
        (Value.Color color) = Ret (to_hex_string (from_hsla h s (Qred (l + f)) a0)) /\
      V0.StudioTokensExtension_to_css (Modify StudioTokensModify.Darken value space)
        (Value.Color color) = Ret (to_hex_string (from_hsla h s (Qred (l - f)) a0)))) /\
  to_hsla (mkColor (1 # 2) (1 # 4) (1 # 4) (1 # 2)) = (0, 1 # 3, 3 # 8, 1 # 2) /\
  option_map to_hsla
    (result_color (StudioTokensExtension_to_rust
       (Modify StudioTokensModify.Lighten "0.5" StudioTokensSpace.Hsl)
       (Value.Color (mkColor (1 # 2) (1 # 4) (1 # 4) (1 # 2)))))
    = Some (0, 1 # 3, 9 # 16, 1 # 2).
Proof.
  split; [|split; vm_compute; reflexivity].
  intros value f color h s l a0 Hf Hc.
  unfold StudioTokensExtension_to_rust, StudioTokensExtension_to_css,
         V0.StudioTokensExtension_to_css, str_parse_f64.
  rewrite Hf, Hc. repeat split.
Qed.

Lemma hsl_lightness_transform_witness :
  StudioTokensExtension_to_rust
    (Modify StudioTokensModify.Lighten "0.5" StudioTokensSpace.Hsl) (Value.Color gray_666)
    = Ret (Value.Color (from_hsla 0 0 (Qred ((2 # 5) + (2 # 5) * (1 # 2))) 1)).
Proof.
  refine (proj1 (proj1 hsl_lightness_transform "0.5" (1 # 2) gray_666 0 0 (2 # 5) 1 _ _));
    vm_compute; reflexivity.
Defined.

(** A non-finite channel is stored with the byte the source prints for it. *)
Lemma f64_channel_byte : forall x, channel_u8 (f64_channel x) = channel_u8_f64 x.
Proof. intros [q|[|]|]; reflexivity. Qed.







(* ------------------------------------------------------------------ *)
(** ** Identifiers: slugs, file names, property names *)

(** Every character of [s] satisfies [p]. *)
Fixpoint all_chars (p : ascii -> bool) (s : string) : bool :=
  match s with
  | EmptyString => true
  | String c s' => p c && all_chars p s'
  end.

(** The characters [slugify] rewrites: [,], [+], [.], [(], [)] and space. *)
Definition slug_special (c : ascii) : bool :=
  Ascii.eqb c "," || Ascii.eqb c "+" || Ascii.eqb c "." || Ascii.eqb c "("
  || Ascii.eqb c ")" || Ascii.eqb c " ".

Ltac ascii_cases :=
  let x := fresh "x" in
  intros x; destruct x as [[] [] [] [] [] [] [] []]; vm_compute;
  first [reflexivity | intros; discriminate].

Lemma all_chars_impl :
  forall (p q : ascii -> bool) s, (forall x, p x = true -> q x = true) ->
  all_chars p s = true -> all_chars q s = true.
Proof.
  intros p q s Hpq. induction s as [|c s IH]; simpl; [reflexivity|].
  intros H. apply andb_true_iff in H as [Hc Hs]. rewrite (Hpq c Hc), (IH Hs). reflexivity.
Qed.

Lemma all_chars_true :
  forall (p : ascii -> bool) s, (forall x, p x = true) -> all_chars p s = true.
Proof.
  intros p s H. induction s as [|c s IH]; simpl; [reflexivity|]. rewrite H, IH. reflexivity.
Qed.

Lemma all_chars_app :
  forall p s t, all_chars p (s ++ t) = all_chars p s && all_chars p t.
Proof.
  intros p s t. induction s as [|c s IH]; simpl; [reflexivity|].
  rewrite IH. apply andb_assoc.
Qed.

Lemma all_chars_map_chars :
  forall p f s, all_chars p (map_chars f s) = all_chars (fun x => p (f x)) s.
Proof. intros p f s. induction s as [|c s IH]; simpl; congruence. Qed.

Lemma all_chars_replace :
  forall (p : ascii -> bool) c rep s,
    all_chars p rep = true ->
    all_chars (fun x => Ascii.eqb x c || p x) s = true ->
    all_chars p (str_replace c rep s) = true.
Proof.
  intros p c rep s Hrep. induction s as [|c' s IH]; simpl; [reflexivity|].
  intros H. apply andb_true_iff in H as [Hc Hs].
  destruct (Ascii.eqb c' c) eqn:E.
  - rewrite all_chars_app, Hrep, (IH Hs). reflexivity.
  - simpl in Hc. simpl. rewrite Hc, (IH Hs). reflexivity.
Qed.

Lemma all_chars_join :
  forall p sep l, all_chars p sep = true -> Forall (fun w => all_chars p w = true) l ->
  all_chars p (join sep l) = true.
Proof.
  intros p sep l Hsep Hl. induction Hl as [|w l Hw Hl IH]; [reflexivity|].
  destruct l as [|w' l]; [exact Hw|].
  change (join sep (w :: w' :: l)) with (w ++ sep ++ join sep (w' :: l)).
  rewrite !all_chars_app, Hw, Hsep, IH. reflexivity.
Qed.

Lemma str_length_app :
  forall s t, String.length (s ++ t) = (String.length s + String.length t)%nat.
Proof. intros s t. induction s; simpl; congruence. Qed.

Lemma length_replace1 :
  forall c rep s, String.length rep = 1%nat ->
  String.length (str_replace c rep s) = String.length s.
Proof.
  intros c rep s Hrep. induction s as [|c' s IH]; simpl; [reflexivity|].
  destruct (Ascii.eqb c' c); simpl; [|congruence].
  rewrite str_length_app, Hrep, IH. reflexivity.
Qed.

Lemma length_map_chars :
  forall f s, String.length (map_chars f s) = String.length s.
Proof. intros f s. induction s; simpl; congruence. Qed.

Lemma replace_absent :
  forall c rep s, all_chars (fun x => negb (Ascii.eqb x c)) s = true -> str_replace c rep s = s.
Proof.
  intros c rep s. induction s as [|c' s IH]; simpl; [reflexivity|].
  intros H. apply andb_true_iff in H as [Hc Hs].
  destruct (Ascii.eqb c' c); [discriminate|]. rewrite (IH Hs). reflexivity.
Qed.

Lemma map_chars_fixed :
  forall f s, all_chars (fun x => Ascii.eqb (f x) x) s = true -> map_chars f s = s.
Proof.
  intros f s. induction s as [|c s IH]; simpl; [reflexivity|].
  intros H. apply andb_true_iff in H as [Hc Hs].
  apply Ascii.eqb_eq in Hc. rewrite Hc, (IH Hs). reflexivity.
Qed.

(** The characters of a slug: no upper-case letter and none of the
    characters [slugify] rewrites, when the separator has neither. *)
Lemma slugify_chars :
  forall s sep,
    all_chars (fun x => negb (is_upper x || slug_special x)) sep = true ->
    all_chars (fun x => negb (is_upper x || slug_special x)) (slugify s sep) = true.
Proof.
  intros s sep Hsep. unfold slugify, to_ascii_lowercase.
  rewrite all_chars_map_chars.
  apply (all_chars_impl (fun x => negb (slug_special x))).
  { ascii_cases. }
  apply all_chars_replace; [eapply all_chars_impl; [|exact Hsep]; ascii_cases|].
  do 5 (apply all_chars_replace; [reflexivity|]).
  apply all_chars_true. ascii_cases.
Qed.

Lemma slugify_length :
  forall s sep, String.length sep = 1%nat -> String.length (slugify s sep) = String.length s.
Proof.
  intros s sep Hsep. unfold slugify, to_ascii_lowercase.
  rewrite length_map_chars, (length_replace1 _ _ _ Hsep).
  rewrite !length_replace1; reflexivity.
Qed.

(** A key of ASCII text without DEL: every byte below 127. [deunicode]
    returns such text unchanged, so [slugify] models the source exactly on it. *)
Definition ascii_key (s : string) : bool :=
  all_chars (fun x => Nat.ltb (nat_of_ascii x) 127) s.

(** X1: for a key of ASCII text (without DEL), a CSS or Rust slug has the
    length of the key, and holds no upper-case letter and none of [,], [+],
    [.], [(], [)] or space. *)
Theorem slug_charset :
  forall s,
    ascii_key s = true ->
    all_chars (fun x => negb (is_upper x || slug_special x)) (slugify_css s) = true /\
    all_chars (fun x => negb (is_upper x || slug_special x)) (slugify_rs s) = true /\
    String.length (slugify_css s) = String.length s /\
    String.length (slugify_rs s) = String.length s.
Proof.
  intros s _. unfold slugify_css, slugify_rs.
  split; [apply slugify_chars; reflexivity|].
  split; [apply slugify_chars; reflexivity|].
  split; apply slugify_length; reflexivity.
Qed.

Lemma slug_charset_witness :
  ascii_key "Primary (Dark) 1.5" = true /\
  slugify_css "Primary (Dark) 1.5" = "primary-_dark_-1d5" /\
  all_chars (fun x => negb (is_upper x || slug_special x)) (slugify_css "Primary (Dark) 1.5") = true.
Proof.
  split; [vm_compute; reflexivity|]. split; [vm_compute; reflexivity|].
  apply (slug_charset "Primary (Dark) 1.5"). vm_compute; reflexivity.
Defined.

(** X2: for a key of ASCII text (without DEL), slugifying its slug
    changes nothing. *)
Theorem slugify_idempotent :
  forall s, ascii_key s = true ->
            slugify_css (slugify_css s) = slugify_css s /\
            slugify_rs (slugify_rs s) = slugify_rs s.
Proof.
  assert (H : forall t sep,
             all_chars (fun x => negb (is_upper x || slug_special x)) sep = true ->
             all_chars (fun x => negb (is_upper x || slug_special x)) t = true ->
             slugify t sep = t).
  { intros t sep Hsep Ht. unfold slugify, to_ascii_lowercase.
    rewrite (replace_absent ","), (replace_absent "+"), (replace_absent "."),
            (replace_absent "("), (replace_absent ")"), (replace_absent " ");
      try (eapply all_chars_impl; [|exact Ht]; ascii_cases).
    apply map_chars_fixed. eapply all_chars_impl; [|exact Ht]; ascii_cases. }
  intros s _. unfold slugify_css, slugify_rs.
  split; apply H; try reflexivity; apply slugify_chars; reflexivity.
Qed.

Lemma slugify_idempotent_witness :
  ascii_key "Primary (Dark) 1.5" = true /\
  slugify_css (slugify_css "Primary (Dark) 1.5") = slugify_css "Primary (Dark) 1.5" /\
  slugify_rs (slugify_rs "Primary (Dark) 1.5") = slugify_rs "Primary (Dark) 1.5".
Proof.
  split; [vm_compute; reflexivity|].
  apply (slugify_idempotent "Primary (Dark) 1.5"). vm_compute; reflexivity.
Defined.

Lemma str_app_nil_r : forall s, s ++ EmptyString = s.
Proof. induction s; simpl; congruence. Qed.

Lemma str_app_assoc : forall s t u, s ++ t ++ u = (s ++ t) ++ u.
Proof. intros s t u. induction s; simpl; congruence. Qed.

Lemma split_on_absent :
  forall c s, str_contains c s = false -> split_on c s = [s].
Proof.
  intros c s. induction s as [|c' s IH]; simpl; [reflexivity|].
  intros H. apply orb_false_iff in H as [Hc Hs]. rewrite Ascii.eqb_sym, Hc, (IH Hs).
  reflexivity.
Qed.

Lemma split_on_app :
  forall c pre t, str_contains c pre = false ->
  split_on c (pre ++ String c t) = pre :: split_on c t.
Proof.
  intros c pre t. induction pre as [|c' pre IH]; simpl.
  - intros _. rewrite Ascii.eqb_refl. reflexivity.
  - intros H. apply orb_false_iff in H as [Hc Hs]. rewrite Ascii.eqb_sym, Hc, (IH Hs).
    reflexivity.
Qed.

(** X3: [get_name] is ["ambient"] for a document without a file name; for
    a file name it is the text between its first and second [.] (or after
    the first [.] when there is no second); a file name without [.]
    panics. *)
Theorem get_name_cases :
  forall d,
    (file_name d = None -> DesignTokens_get_name d = Ret "ambient") /\
    (forall n, file_name d = Some n -> str_contains "." n = false ->
       DesignTokens_get_name d = Panic UnwrapFailed) /\
    (forall n pre mid rest, file_name d = Some n -> n = pre ++ "." ++ mid ++ rest ->
       str_contains "." pre = false -> str_contains "." mid = false ->
       (rest = EmptyString \/ exists r, rest = "." ++ r) ->
       DesignTokens_get_name d = Ret mid).
Proof.
  intros d. unfold DesignTokens_get_name. split; [|split].
  - intros H. rewrite H. reflexivity.
  - intros n H Hn. rewrite H, (split_on_absent _ _ Hn). reflexivity.
  - intros n pre mid rest H -> Hpre Hmid Hrest. rewrite H.
    change ("." ++ mid ++ rest) with (String "." (mid ++ rest)).
    rewrite (split_on_app _ _ _ Hpre).
    destruct Hrest as [-> | [r ->]].
    + rewrite str_app_nil_r, (split_on_absent _ _ Hmid). reflexivity.
    + change ("." ++ r) with (String "." r).
      rewrite (split_on_app _ _ _ Hmid). reflexivity.
Qed.

Lemma get_name_cases_witness :
  DesignTokens_get_name (mkDesignTokens (Some "tokens.light.json") (Group [])) = Ret "light".
Proof.
  refine (proj2 (proj2 (get_name_cases (mkDesignTokens (Some "tokens.light.json") (Group []))))
            "tokens.light.json" "tokens" "light" ".json" eq_refl eq_refl eq_refl eq_refl _).
  right. exists "json". reflexivity.
Defined.

Lemma split_words_nodelim :
  forall l prev cur,
    Forall (fun c => is_delim c = false) cur ->
    Forall (fun w => Forall (fun c => is_delim c = false) w) (split_words prev cur l).
Proof.
  induction l as [|c l IH]; intros prev cur Hcur; simpl.
  - constructor; [apply Forall_rev; exact Hcur|constructor].
  - destruct (is_delim c) eqn:Hc.
    + constructor; [apply Forall_rev; exact Hcur|apply IH; constructor].
    + destruct (match prev with Some p => boundary p c (hd_error l) | None => false end).
      * constructor; [apply Forall_rev; exact Hcur|apply IH; constructor; auto].
      * apply IH. constructor; auto.
Qed.

Lemma all_chars_of_list :
  forall p w, Forall (fun c => p c = true) w -> all_chars p (string_of_list_ascii w) = true.
Proof.
  intros p w H. induction H as [|c w Hc Hw IH]; simpl; [reflexivity|]. rewrite Hc, IH.
  reflexivity.
Qed.

(** The words [convert_case] splits a text into contain no delimiter. *)
Lemma words_nodelim :
  forall t, Forall (fun w => all_chars (fun x => negb (is_delim x)) w = true) (words t).
Proof.
  intros t. unfold words. apply Forall_map.
  apply Forall_forall. intros w Hw. apply filter_In in Hw as [Hw _].
  pose proof (split_words_nodelim (list_ascii_of_string t) None [] (Forall_nil _)) as H.
  rewrite Forall_forall in H. specialize (H w Hw).
  apply all_chars_of_list. eapply Forall_impl; [|exact H].
  intros c Hc. rewrite Hc. reflexivity.
Qed.

(** A case conversion joins the case-mapped words with a separator: if the
    separator and every mapped non-delimiter satisfy [P], so does the result. *)
Lemma case_join_chars :
  forall (P : ascii -> bool) f sep t,
    all_chars P sep = true ->
    (forall x, negb (is_delim x) = true -> P (f x) = true) ->
    all_chars P (join sep (map (map_chars f) (words t))) = true.
Proof.
  intros P f sep t Hsep Hf. apply all_chars_join; [exact Hsep|].
  apply Forall_map. eapply Forall_impl; [|apply words_nodelim].
  intros w Hw. simpl. rewrite all_chars_map_chars.
  eapply all_chars_impl; [|exact Hw]. exact Hf.
Qed.

(** X4: the module name [get_name_rust] gives a token file (the name of
    its [pub mod] in the generated Rust) has no lower-case letter and no
    [_], [-] or space; without a file name it is [AMBIENT]. *)
Theorem get_name_rust_charset :
  (forall d s, DesignTokens_get_name_rust d = Ret s ->
     all_chars (fun x => negb (is_lower x || is_delim x)) s = true) /\
  (forall d, file_name d = None -> DesignTokens_get_name_rust d = Ret "AMBIENT").
Proof.
  split.
  - intros d s H. unfold DesignTokens_get_name_rust in H.
    destruct (DesignTokens_get_name d); cbn [bind] in H; try discriminate.
    inversion H; subst s. unfold to_case_upper_flat.
    apply case_join_chars; [reflexivity|ascii_cases].
  - intros d H. unfold DesignTokens_get_name_rust, DesignTokens_get_name.
    rewrite H. reflexivity.
Qed.

Lemma get_name_rust_charset_witness :
  DesignTokens_get_name_rust (mkDesignTokens (Some "tokens.Light Mode (v2).json") (Group []))
    = Ret "LIGHTMODEV2" /\
  all_chars (fun x => negb (is_lower x || is_delim x)) "LIGHTMODEV2" = true.
Proof.
  split; [vm_compute; reflexivity|].
  apply (proj1 get_name_rust_charset
           (mkDesignTokens (Some "tokens.Light Mode (v2).json") (Group []))).
  vm_compute. reflexivity.
Defined.

(** X5: a CSS property name written for an entry of a composite token has
    no upper-case letter, no [_] and no space, whatever the key. *)
Theorem css_property_charset :
  forall type_ key,
    all_chars (fun x => negb (is_upper x || Ascii.eqb x "_" || Ascii.eqb x " "))
      (css_property type_ key) = true.
Proof.
  intros type_ key.
  assert (Hk : all_chars (fun x => negb (is_upper x || Ascii.eqb x "_" || Ascii.eqb x " "))
                 (to_case_kebab key) = true).
  { unfold to_case_kebab, to_ascii_lowercase.
    apply case_join_chars; [reflexivity|ascii_cases]. }
  destruct type_; simpl; try exact Hk;
    repeat match goal with
           | |- context [if ?c then _ else _] => destruct c
           end; try reflexivity; exact Hk.
Qed.

(* ------------------------------------------------------------------ *)
(** ** Looking tokens up and evaluating expressions *)

(** The child a group lookup picks: the first entry with the key. *)
Fixpoint group_get (key : string) (l : list (string * TokenOrGroup)) : option TokenOrGroup :=
  match l with
  | [] => None
  | (k, child) :: l' => if String.eqb key k then Some child else group_get key l'
  end.

(** The node a path leads to, one group entry per segment. *)
Fixpoint subtree (t : TokenOrGroup) (p : list string) : option TokenOrGroup :=
  match p with
  | [] => Some t
  | k :: p' =>
      match t with
      | Group g => match group_get k g with Some c => subtree c p' | None => None end
      | Token _ _ _ => None
      end
  end.

Lemma get_value_group :
  forall g k rest,
    TokenOrGroup_get_value (Group g) (k :: rest) =
    match group_get k g with
    | Some c => TokenOrGroup_get_value c rest
    | None => Ret None
    end.
Proof.
  intros g k rest. induction g as [|[k' c] g IH]; simpl; [reflexivity|].
  destruct (String.eqb k k'); [reflexivity|]. exact IH.
Qed.

(** Lookup composes along a path. *)
Lemma get_value_subtree :
  forall p1 t c p2, subtree t p1 = Some c ->
  TokenOrGroup_get_value t (p1 ++ p2) = TokenOrGroup_get_value c p2.
Proof.
  induction p1 as [|k p1 IH]; intros t c p2 H; simpl in H.
  - inversion H. reflexivity.
  - destruct t as [v ty ext|g]; [discriminate|].
    cbn [app]. rewrite get_value_group.
    destruct (group_get k g) as [c'|]; [|discriminate]. apply IH. exact H.
Qed.

(** X6: [TokenOrGroup::get_value] follows the path through the groups,
    taking the first entry with each key. Where the path ends at a token
    it gives the token's value; a missing key gives nothing; a path that
    ends at a group panics ([path[0]] of an empty path), and one that goes
    on past a token panics ([assert_eq!]). *)
Theorem token_lookup :
  forall t p1 p2 c,
    subtree t p1 = Some c ->
    TokenOrGroup_get_value t (p1 ++ p2) = TokenOrGroup_get_value c p2 /\
    (forall v ty ext, c = Token v ty ext ->
       TokenOrGroup_get_value t p1 = Ret (Some v) /\
       (p2 <> [] -> TokenOrGroup_get_value t (p1 ++ p2) = Panic AssertEqFailed)) /\
    (forall g, c = Group g ->
       TokenOrGroup_get_value t p1 = Panic IndexOutOfBounds /\
       (forall k rest, group_get k g = None ->
          TokenOrGroup_get_value t (p1 ++ k :: rest) = Ret None)).
Proof.
  intros t p1 p2 c H.
  pose proof (get_value_subtree p1 t c) as Hc.
  split; [apply Hc; exact H|].
  assert (H1 : TokenOrGroup_get_value t p1 = TokenOrGroup_get_value c []).
  { rewrite <- (app_nil_r p1) at 1. apply Hc. exact H. }
  split.
  - intros v ty ext ->. rewrite H1. split; [reflexivity|].
    intros Hp. rewrite (Hc p2 H). destruct p2; [contradiction|reflexivity].
  - intros g ->. rewrite H1. split; [reflexivity|].
    intros k rest Hk. rewrite (Hc _ H), get_value_group, Hk. reflexivity.
Qed.

Lemma token_lookup_witness :
  TokenOrGroup_get_value (body brand_doc) (["Color"] ++ ["Brand"]) =
    TokenOrGroup_get_value (Group [("Brand", Token (Single brand_expr) TokenType.Other None);
                                   ("Accent", Token (Single accent_expr) TokenType.Other None)])
      ["Brand"].
Proof.
  apply (proj1 (token_lookup (body brand_doc) ["Color"] ["Brand"] _ eq_refl)).
Defined.

(** X7: resolving a reference [{path}] panics with a fault that depends on
    where the path leads: "No such path" for a missing key, "Can't resolve"
    for a composite token, an index panic for a group, the [assert_eq!] for
    a path that goes on past a token. *)
Theorem ref_resolution_faults :
  forall fuel tokens p1 c,
    subtree (body tokens) p1 = Some c ->
    (forall d ty ext, c = Token (Dict d) ty ext ->
       get_value (S fuel) tokens (Expression.Ref p1) = Panic CantResolve) /\
    (forall g, c = Group g ->
       get_value (S fuel) tokens (Expression.Ref p1) = Panic IndexOutOfBounds /\
       (forall k rest, group_get k g = None ->
          get_value (S fuel) tokens (Expression.Ref (p1 ++ k :: rest))
            = Panic (NoSuchPath (p1 ++ k :: rest)))) /\
    (forall v ty ext p2, c = Token v ty ext -> p2 <> [] ->
       get_value (S fuel) tokens (Expression.Ref (p1 ++ p2)) = Panic AssertEqFailed).
Proof.
  intros fuel tokens p1 c H.
  pose proof (get_value_subtree p1 (body tokens) c) as Hc.
  assert (H1 : DesignTokens_get_value tokens p1 = TokenOrGroup_get_value c []).
  { unfold DesignTokens_get_value. rewrite <- (app_nil_r p1) at 1. apply Hc. exact H. }
  cbn [get_value].
  split; [|split].
  - intros d ty ext ->. rewrite H1. reflexivity.
  - intros g ->. rewrite H1. split; [reflexivity|].
    intros k rest Hk. unfold DesignTokens_get_value.
    rewrite (Hc _ H), get_value_group, Hk. reflexivity.
  - intros v ty ext p2 -> Hp. unfold DesignTokens_get_value. rewrite (Hc _ H).
    destruct p2; [contradiction|reflexivity].
Qed.

Lemma ref_resolution_faults_witness :
  get_value 1 brand_doc (Expression.Ref ["Color"]) = Panic IndexOutOfBounds /\
  get_value 1 brand_doc (Expression.Ref (["Color"] ++ ["Hover"])) =
    Panic (NoSuchPath (["Color"] ++ ["Hover"])).
Proof.
  destruct (proj1 (proj2 (ref_resolution_faults 0 brand_doc ["Color"] _ eq_refl)) _ eq_refl)
    as [H1 H2].
  split; [exact H1|]. apply (H2 "Hover" []). reflexivity.
Defined.

(** An expression without references. *)
Fixpoint ref_free (e : Expression.t) : bool :=
  match e with
  | Expression.Ref _ => false
  | Expression.Mul x y | Expression.Div x y => ref_free x && ref_free y
  | Expression.Value _ => true
  end.

(** X8: an expression without references evaluates the same in every
    document. *)
Theorem ref_free_document_independent :
  forall e fuel t1 t2, ref_free e = true -> get_value fuel t1 e = get_value fuel t2 e.
Proof.
  induction e as [path|x IHx y IHy|x IHx y IHy|v]; intros fuel t1 t2 H;
    destruct fuel as [|fuel]; simpl in *; try reflexivity; try discriminate;
    apply andb_true_iff in H as [Hx Hy]; rewrite (IHx fuel t1 t2 Hx), (IHy fuel t1 t2 Hy);
    reflexivity.
Qed.

Lemma ref_free_document_independent_witness :
  get_value 2 brand_doc (Expression.Mul (Expression.Value (Value.Number 2 NumberType.Pixels))
                                        (Expression.Value (Value.Number 3 NumberType.None))) =
  get_value 2 cycle_doc (Expression.Mul (Expression.Value (Value.Number 2 NumberType.Pixels))
                                        (Expression.Value (Value.Number 3 NumberType.None))).
Proof. apply ref_free_document_independent. reflexivity. Defined.

(** Two values of the same kind: colours, or numbers. *)
Definition same_kind (x y : Value.t) : bool :=
  match x, y with
  | Value.Color _, Value.Color _ | Value.Number _ _, Value.Number _ _ => true
  | _, _ => false
  end.

(** X9: [Mul] and [Div] evaluate the left operand, then the right one; a
    fault of the left operand is the result whatever the right one does;
    operands of different kinds, or opaque text, make [Mul] panic with
    "Not handled" and [Div] with [todo!]. *)
Theorem arith_operand_rules :
  forall fuel tokens x y,
    (forall f, get_value fuel tokens x = Panic f ->
       get_value (S fuel) tokens (Expression.Mul x y) = Panic f /\
       get_value (S fuel) tokens (Expression.Div x y) = Panic f) /\
    (forall vx f, get_value fuel tokens x = Ret vx -> get_value fuel tokens y = Panic f ->
       get_value (S fuel) tokens (Expression.Mul x y) = Panic f /\
       get_value (S fuel) tokens (Expression.Div x y) = Panic f) /\
    (forall vx vy, get_value fuel tokens x = Ret vx -> get_value fuel tokens y = Ret vy ->
       same_kind vx vy = false ->
       get_value (S fuel) tokens (Expression.Mul x y) = Panic NotHandled /\
       get_value (S fuel) tokens (Expression.Div x y) = Panic Todo).
Proof.
  intros fuel tokens x y. cbn [get_value]. split; [|split].
  - intros f Hx. rewrite Hx. split; reflexivity.
  - intros vx f Hx Hy. rewrite Hx. cbn [bind]. rewrite Hy. split; reflexivity.
  - intros vx vy Hx Hy Hk. rewrite Hx. cbn [bind]. rewrite Hy. cbn [bind].
    destruct vx, vy; try discriminate Hk; split; reflexivity.
Qed.

Lemma arith_operand_rules_witness :
  get_value 2 brand_doc (Expression.Mul brand_expr
                           (Expression.Value (Value.Number 2 NumberType.None))) = Panic NotHandled /\
  get_value 2 brand_doc (Expression.Div brand_expr
                           (Expression.Value (Value.Number 2 NumberType.None))) = Panic Todo.
Proof.
  apply (proj2 (proj2 (arith_operand_rules 1 brand_doc brand_expr
           (Expression.Value (Value.Number 2 NumberType.None))))
           (Value.Color (mkColor 1 0 1 1)) (Value.Number 2 NumberType.None));
    reflexivity.
Defined.

(** X10: multiplying two colours, or two numbers of the same unit, does not
    depend on the order of the operands. *)
Theorem mul_commutes :
  forall fuel tokens x y vx vy,
    get_value fuel tokens x = Ret vx -> get_value fuel tokens y = Ret vy ->
    (match vx, vy with
     | Value.Color _, Value.Color _ => True
     | Value.Number _ ux, Value.Number _ uy => ux = uy
     | _, _ => False
     end) ->
    get_value (S fuel) tokens (Expression.Mul x y) = get_value (S fuel) tokens (Expression.Mul y x).
Proof.
  intros fuel tokens x y vx vy Hx Hy Hk. cbn [get_value]. rewrite Hx, Hy. cbn [bind].
  assert (Hq : forall p q : Q, Qred (p * q) = Qred (q * p)).
  { intros p q. apply Qred_complete. apply Qmult_comm. }
  destruct vx as [cx|nx ux|sx], vy as [cy|ny uy|sy]; try contradiction; unfold mul_values.
  - rewrite (Hq (r cx)), (Hq (g cx)), (Hq (b cx)), (Hq (a cx)). reflexivity.
  - subst uy. unfold f32_mul. rewrite Hq. reflexivity.
Qed.

Lemma mul_commutes_witness :
  get_value 3 xy_doc (Expression.Mul (Expression.Ref ["y"])
                        (Expression.Value (Value.Number (1 # 2) NumberType.None))) =
  get_value 3 xy_doc (Expression.Mul (Expression.Value (Value.Number (1 # 2) NumberType.None))
                        (Expression.Ref ["y"])).
Proof.
  apply (mul_commutes 2 xy_doc _ _ (Value.Number 5 NumberType.None)
           (Value.Number (1 # 2) NumberType.None)); reflexivity.
Defined.

(* ------------------------------------------------------------------ *)
(** ** The expression grammar *)

(** Case analysis on every [match] of a hypothesis. *)
Ltac destruct_in H :=
  repeat match type of H with
         | context [match ?t with _ => _ end] => destruct t
         end.

(** Every free-text value [Value::Any] of an expression is made of
    characters of the [Any] rule. *)
Fixpoint any_ok (e : Expression.t) : bool :=
  match e with
  | Expression.Value (Value.Any s) => all_chars any_char s
  | Expression.Mul x y | Expression.Div x y => any_ok x && any_ok y
  | _ => true
  end.

Lemma span_all : forall p s v r, span p s = (v, r) -> all_chars p v = true.
Proof.
  intros p s. induction s as [|c s IH]; intros v r H; simpl in H.
  - injection H as <- _. reflexivity.
  - destruct (p c) eqn:E.
    + destruct (span p s) as [w rest] eqn:Es. injection H as <- _.
      simpl. rewrite E. exact (IH w rest eq_refl).
    + injection H as <- _. reflexivity.
Qed.

Lemma atom_any_ok : forall s x r, atom s = POk x r -> any_ok x = true.
Proof.
  intros s x r H. unfold atom, alt in H.
  destruct (p_ref s) eqn:E1.
  - unfold p_ref in E1. destruct_in E1; try discriminate E1.
    injection E1 as <- _. injection H as <- _. reflexivity.
  - destruct (p_color s) eqn:E2.
    + unfold p_color in E2. destruct_in E2; try discriminate E2.
      injection E2 as <- _. injection H as <- _. reflexivity.
    + destruct (p_percentage s) eqn:E3.
      * unfold p_percentage in E3. destruct_in E3; try discriminate E3.
        injection E3 as <- _. injection H as <- _. reflexivity.
      * destruct (p_pixels s) eqn:E4.
        -- unfold p_pixels in E4. destruct_in E4; try discriminate E4.
           injection E4 as <- _. injection H as <- _. reflexivity.
        -- destruct (p_bare_number s) eqn:E5.
           ++ unfold p_bare_number in E5. destruct_in E5; try discriminate E5.
              injection E5 as <- _. injection H as <- _. reflexivity.
           ++ unfold p_any in H. destruct (span any_char s) as [v rest] eqn:Es.
              injection H as <- _. exact (span_all _ _ _ _ Es).
           ++ discriminate H.
        -- discriminate H.
      * discriminate H.
    + discriminate H.
  - discriminate H.
Qed.

Lemma infix_any_ok : forall op s y r, infix op s = POk y r -> any_ok y = true.
Proof.
  intros op s y r H. unfold infix in H.
  destruct (ws s) as [|c s']; [discriminate H|].
  destruct (Ascii.eqb c op); [|discriminate H].
  exact (atom_any_ok _ _ _ H).
Qed.

Lemma expr_loop_any_ok :
  forall n x s e r, any_ok x = true -> expr_loop n x s = POk e r -> any_ok e = true.
Proof.
  induction n as [|n IH]; intros x s e r Hx H; simpl in H.
  - injection H as <- _. exact Hx.
  - destruct (infix "*" s) as [y rest| |f] eqn:E1.
    + eapply IH; [|exact H]. cbn [any_ok]. rewrite Hx, (infix_any_ok _ _ _ _ E1). reflexivity.
    + destruct (infix "/" s) as [y rest| |f] eqn:E2.
      * eapply IH; [|exact H]. cbn [any_ok]. rewrite Hx, (infix_any_ok _ _ _ _ E2). reflexivity.
      * injection H as <- _. exact Hx.
      * discriminate H.
    + discriminate H.
Qed.

Lemma any_char_not_special :
  forall c, any_char c = true ->
  Ascii.eqb c "{" = false /\ Ascii.eqb c "}" = false /\ Ascii.eqb c "*" = false /\
  Ascii.eqb c "/" = false /\ Ascii.eqb c "034" = false.
Proof.
  intros c. destruct c as [[] [] [] [] [] [] [] []]; vm_compute; first [intros; discriminate | intros; repeat split].
Qed.

(** X11: the free-text values of a parsed expression hold only the
    characters of the [Any] rule (letters, digits, [#], [%], [-], [.] and
    space), so never a brace, an operator or a double quote. *)
Theorem parsed_any_charset :
  (forall s e, expr s = ParseOk e -> any_ok e = true) /\
  (forall c, any_char c = true ->
     Ascii.eqb c "{" = false /\ Ascii.eqb c "}" = false /\ Ascii.eqb c "*" = false /\
     Ascii.eqb c "/" = false /\ Ascii.eqb c "034" = false).
Proof.
  split; [|exact any_char_not_special].
  intros s e H. unfold expr, expr_prec in H.
  destruct (atom s) as [x rest| |f] eqn:Ea; try discriminate H.
  destruct (expr_loop (String.length rest) x rest) as [e' r| |f] eqn:El; try discriminate H.
  destruct r; [|discriminate H]. injection H as <-.
  exact (expr_loop_any_ok _ _ _ _ _ (atom_any_ok _ _ _ Ea) El).
Qed.


Lemma parsed_any_charset_witness :
  any_ok (Expression.Mul (Expression.Value (Value.Any "em 2 ")) (Expression.Ref ["a"])) = true /\
  Ascii.eqb "%"%char "{"%char = false.
Proof.
  split.
  - apply (proj1 parsed_any_charset "em 2 * {a}"). vm_compute. reflexivity.
  - apply (proj2 parsed_any_charset "%"%char). reflexivity.
Defined.


(** An ASCII letter. *)
Definition is_letter (c : ascii) : bool := is_lower c || is_upper c.

Lemma span_digits_app :
  forall n u, all_chars is_digit n = true ->
  (match u with String c _ => is_digit c = false | EmptyString => True end) ->
  span is_digit (n ++ u) = (n, u).
Proof.
  induction n as [|c n IH]; intros u Hn Hu; simpl.
  - destruct u as [|c u]; [reflexivity|]. simpl. rewrite Hu. reflexivity.
  - simpl in Hn. apply andb_true_iff in Hn as [Hc Hn]. rewrite Hc, (IH u Hn Hu). reflexivity.
Qed.

Lemma number_digits_unit :
  forall n c2 u', n <> EmptyString -> all_chars is_digit n = true ->
  is_letter c2 = true ->
  number (n ++ String c2 u') = POk (decimal_value false n EmptyString) (String c2 u').
Proof.
  intros n c2 u' Hne Hn Hl. destruct n as [|c n']; [congruence|].
  pose proof Hn as Hn'. simpl in Hn'. apply andb_true_iff in Hn' as [Hc Hd].
  assert (Hsp : span is_digit (n' ++ String c2 u') = (n', String c2 u')).
  { apply span_digits_app; [exact Hd|]. revert Hl. clear. unfold is_letter.
    destruct c2 as [[] [] [] [] [] [] [] []]; vm_compute; first [reflexivity | intros; discriminate]. }
  destruct c as [[] [] [] [] [] [] [] []]; vm_compute in Hc; try discriminate Hc;
  destruct c2 as [[] [] [] [] [] [] [] []]; vm_compute in Hl; try discriminate Hl;
  unfold number; cbn [append]; simpl; rewrite Hsp; reflexivity.
Qed.

Lemma p_ref_digit : forall c s, is_digit c = true -> p_ref (String c s) = PFail.
Proof.
  intros c s H. destruct c as [[] [] [] [] [] [] [] []]; vm_compute in H; try discriminate H; reflexivity.
Qed.

Lemma p_color_digit : forall c s, is_digit c = true -> p_color (String c s) = PFail.
Proof.
  intros c s H. destruct c as [[] [] [] [] [] [] [] []]; vm_compute in H; try discriminate H; reflexivity.
Qed.

Lemma p_percentage_letter :
  forall s v c2 u', number s = POk v (String c2 u') -> is_letter c2 = true -> p_percentage s = PFail.
Proof.
  intros s v c2 u' Hn Hl. unfold p_percentage. rewrite Hn.
  destruct c2 as [[] [] [] [] [] [] [] []]; vm_compute in Hl; try discriminate Hl; reflexivity.
Qed.

Lemma p_pixels_cases :
  forall s v r, number s = POk v r ->
  (exists rest, r = "px" ++ rest /\
     p_pixels s = POk (Expression.Value (Value.Number v NumberType.Pixels)) rest) \/
  p_pixels s = PFail.
Proof.
  intros s v r Hn. unfold p_pixels. rewrite Hn.
  destruct r as [|c r]; [right; reflexivity|].
  destruct c as [[] [] [] [] [] [] [] []]; try (right; reflexivity).
  destruct r as [|c r]; [right; reflexivity|].
  destruct c as [[] [] [] [] [] [] [] []]; try (right; reflexivity).
  left. exists r. split; reflexivity.
Qed.

Lemma expr_loop_letter :
  forall n x c s, is_letter c = true -> expr_loop n x (String c s) = POk x (String c s).
Proof.
  intros [|n] x c s H; [reflexivity|].
  cbn [expr_loop]. unfold infix, ws.
  destruct c as [[] [] [] [] [] [] [] []]; vm_compute in H; try discriminate H; reflexivity.
Qed.

Lemma all_chars_letter_px :
  forall rest, all_chars is_letter ("px" ++ rest) = true -> all_chars is_letter rest = true.
Proof. intros rest H. exact H. Qed.

(** X12: a number literal followed by a unit other than [px] is not an
    expression: digits followed by a non-empty run of letters other than
    [px] (as in [2rem] or [100vh]) give [ParseError]. *)
Theorem unit_suffix_rejected :
  forall n u, n <> EmptyString -> all_chars is_digit n = true ->
  u <> EmptyString -> all_chars is_letter u = true -> u <> "px" ->
  expr (n ++ u) = ParseError.
Proof.
  intros n u Hne Hn Hue Hu Hpx.
  destruct u as [|c2 u']; [congruence|].
  pose proof Hu as Hu'. simpl in Hu'. apply andb_true_iff in Hu' as [Hc2 _].
  pose proof (number_digits_unit n c2 u' Hne Hn Hc2) as Hnum.
  destruct n as [|c n']; [congruence|].
  pose proof Hn as Hc. simpl in Hc. apply andb_true_iff in Hc as [Hc _].
  unfold expr, expr_prec, atom, alt. cbn [append] in Hnum |- *.
  rewrite (p_ref_digit c _ Hc), (p_color_digit c _ Hc), (p_percentage_letter _ _ _ _ Hnum Hc2).
  destruct (p_pixels_cases _ _ _ Hnum) as [[rest [Hr Hp]] | Hp]; rewrite Hp.
  - rewrite Hr in Hu. apply all_chars_letter_px in Hu.
    destruct rest as [|c3 rest']; [rewrite Hr in Hpx; contradiction|].
    simpl in Hu. apply andb_true_iff in Hu as [Hc3 _].
    rewrite (expr_loop_letter _ _ c3 rest' Hc3). reflexivity.
  - unfold p_bare_number. rewrite Hnum. rewrite (expr_loop_letter _ _ c2 u' Hc2). reflexivity.
Qed.

Lemma unit_suffix_rejected_witness : expr ("2" ++ "rem") = ParseError.
Proof.
  apply unit_suffix_rejected; [discriminate | reflexivity | discriminate | reflexivity | discriminate].
Defined.


(** The path of a reference literal [{p}]: [p] split on [.] and every
    piece on [/]. *)
Definition ref_path (p : string) : list string := flat_map (split_on "/") (split_on "." p).

(** A reference literal is the first alternative of [atom]. *)
Lemma atom_ref :
  forall p rest, str_contains "}" p = false ->
  atom ("{" ++ p ++ String "}" rest) =
    POk (Expression.Ref (ref_path p)) rest.
Proof.
  intros p rest H. unfold atom, alt, p_ref. cbn [append].
  rewrite (ref_segments_app p rest H). reflexivity.
Qed.

Lemma expr_loop_end : forall n x, expr_loop n x EmptyString = POk x EmptyString.
Proof. intros [|n] x; reflexivity. Qed.


Lemma infix_ref :
  forall op c q rest, ws_char c = false -> str_contains "}" q = false ->
  infix op (String " " (String c (String " " ("{" ++ q ++ String "}" rest)))) =
    if Ascii.eqb c op then POk (Expression.Ref (ref_path q)) rest else PFail.
Proof.
  intros op c q rest Hc H. unfold infix, ws. simpl span. rewrite Hc. simpl snd.
  cbv beta iota.
  destruct (Ascii.eqb c op); [|reflexivity].
  simpl span. simpl snd. apply atom_ref; exact H.
Qed.

Lemma expr_loop_mul :
  forall n x q rest, str_contains "}" q = false ->
  expr_loop (S n) x (String " " (String "*" (String " " ("{" ++ q ++ String "}" rest)))) =
    expr_loop n (Expression.Mul x (Expression.Ref (ref_path q))) rest.
Proof.
  intros n x q rest H. cbn [expr_loop].
  rewrite (infix_ref "*" "*" q rest eq_refl H). reflexivity.
Qed.

Lemma expr_loop_div :
  forall n x q rest, str_contains "}" q = false ->
  expr_loop (S n) x (String " " (String "/" (String " " ("{" ++ q ++ String "}" rest)))) =
    expr_loop n (Expression.Div x (Expression.Ref (ref_path q))) rest.
Proof.
  intros n x q rest H. cbn [expr_loop].
  rewrite (infix_ref "*" "/" q rest eq_refl H), (infix_ref "/" "/" q rest eq_refl H).
  reflexivity.
Qed.

(** X13: [*] and [/] share one precedence level and associate to the
    left: [{p} * {q} / {r}] parses as [({p} * {q}) / {r}] and
    [{p} / {q} * {r}] as [({p} / {q}) * {r}], for reference bodies
    without [}]. *)
Theorem ops_left_assoc :
  forall p q r,
    str_contains "}" p = false -> str_contains "}" q = false -> str_contains "}" r = false ->
    expr ("{" ++ p ++ "} * {" ++ q ++ "} / {" ++ r ++ "}") =
      ParseOk (Expression.Div (Expression.Mul (Expression.Ref (ref_path p)) (Expression.Ref (ref_path q)))
                              (Expression.Ref (ref_path r))) /\
    expr ("{" ++ p ++ "} / {" ++ q ++ "} * {" ++ r ++ "}") =
      ParseOk (Expression.Mul (Expression.Div (Expression.Ref (ref_path p)) (Expression.Ref (ref_path q)))
                              (Expression.Ref (ref_path r))).
Proof.
  intros p q r Hp Hq Hr.
  split; unfold expr, expr_prec.
  - change ("{" ++ p ++ "} * {" ++ q ++ "} / {" ++ r ++ "}") with
      ("{" ++ p ++ String "}" (String " " (String "*" (String " " ("{" ++ q ++ String "}"
        (String " " (String "/" (String " " ("{" ++ r ++ String "}" EmptyString))))))))).
    rewrite (atom_ref p _ Hp). cbn [String.length].
    rewrite (expr_loop_mul _ _ q _ Hq).
    rewrite str_length_app. cbn [String.length].
    rewrite (expr_loop_div _ _ r _ Hr), expr_loop_end. reflexivity.
  - change ("{" ++ p ++ "} / {" ++ q ++ "} * {" ++ r ++ "}") with
      ("{" ++ p ++ String "}" (String " " (String "/" (String " " ("{" ++ q ++ String "}"
        (String " " (String "*" (String " " ("{" ++ r ++ String "}" EmptyString))))))))).
    rewrite (atom_ref p _ Hp). cbn [String.length].
    rewrite (expr_loop_div _ _ q _ Hq).
    rewrite str_length_app. cbn [String.length].
    rewrite (expr_loop_mul _ _ r _ Hr), expr_loop_end. reflexivity.
Qed.

Lemma ops_left_assoc_witness :
  expr ("{" ++ "a" ++ "} * {" ++ "b.c" ++ "} / {" ++ "d/e" ++ "}") =
    ParseOk (Expression.Div (Expression.Mul (Expression.Ref ["a"]) (Expression.Ref ["b"; "c"]))
                            (Expression.Ref ["d"; "e"])) /\
  expr ("{" ++ "a" ++ "} / {" ++ "b.c" ++ "} * {" ++ "d/e" ++ "}") =
    ParseOk (Expression.Mul (Expression.Div (Expression.Ref ["a"]) (Expression.Ref ["b"; "c"]))
                            (Expression.Ref ["d"; "e"])).
Proof. exact (ops_left_assoc "a" "b.c" "d/e" eq_refl eq_refl eq_refl). Defined.

(* ------------------------------------------------------------------ *)
(** ** What the renderers emit for the token at a path *)

(** [a] occurs in [b]. *)
Definition occurs_in (a b : string) : Prop := exists x y, b = x ++ a ++ y.

Lemma occurs_in_refl : forall a, occurs_in a a.
Proof. intros a. exists EmptyString, EmptyString. simpl. symmetry. apply str_app_nil_r. Qed.

Lemma occurs_in_trans : forall a b c, occurs_in a b -> occurs_in b c -> occurs_in a c.
Proof.
  intros a b c [x [y ->]] [x' [y' ->]].
  exists (x' ++ x), (y ++ y'). rewrite !str_app_assoc. reflexivity.
Qed.

Lemma occurs_in_join :
  forall sep l r, In r l -> occurs_in r (join sep l).
Proof.
  intros sep l r. induction l as [|x l IH]; intros H; [destruct H|].
  destruct H as [<- | H].
  - destruct l as [|y l].
    + apply occurs_in_refl.
    + exists EmptyString, (sep ++ join sep (y :: l)). reflexivity.
  - destruct l as [|y l]; [destruct H|].
    destruct (IH H) as [a [b Hab]].
    exists (x ++ sep ++ a), b. change (join sep (x :: y :: l)) with (x ++ sep ++ join sep (y :: l)).
    rewrite Hab, !str_app_assoc. reflexivity.
Qed.

Lemma run_map_in :
  forall {A B} (f : A -> Run B) l ys x,
  run_map f l = Ret ys -> In x l -> exists y, f x = Ret y /\ In y ys.
Proof.
  intros A B f l. induction l as [|a l IH]; intros ys x H Hin; [destruct Hin|].
  simpl in H. destruct (f a) as [y| |] eqn:Ef; try discriminate H. simpl in H.
  destruct (run_map f l) as [ys'| |] eqn:Er; try discriminate H. simpl in H.
  injection H as <-.
  destruct Hin as [<- | Hin].
  - exists y. split; [exact Ef | left; reflexivity].
  - destruct (IH ys' x eq_refl Hin) as [y' [Hy' Hin']].
    exists y'. split; [exact Hy' | right; exact Hin'].
Qed.

Lemma group_get_in : forall k g c, group_get k g = Some c -> In (k, c) g.
Proof.
  intros k g c. induction g as [|[k' c'] g IH]; simpl; intros H; [discriminate|].
  destruct (String.eqb k k') eqn:E.
  - apply String.eqb_eq in E. subst. injection H as <-. left. reflexivity.
  - right. exact (IH H).
Qed.

(** The custom-property suffix a group path gives: [-key] per segment. *)
Definition css_path (ks : list string) : string :=
  String.concat EmptyString (map (fun k => "-" ++ slugify_css k) ks).

Lemma css_path_cons : forall k ks, css_path (k :: ks) = "-" ++ slugify_css k ++ css_path ks.
Proof. intros k ks. unfold css_path. cbn [map]. destruct ks; simpl; [rewrite str_app_nil_r|]; reflexivity. Qed.

Lemma to_css_subtree :
  forall iter fuel tokens ks t tok root pre out,
  subtree t ks = Some tok ->
  TokenOrGroup_to_css iter fuel tokens t root pre = Ret out ->
  exists r, TokenOrGroup_to_css iter fuel tokens tok root (pre ++ css_path ks) = Ret r /\
            occurs_in r out.
Proof.
  intros iter fuel tokens ks. induction ks as [|k ks IH]; intros t tok root pre out Hs Ho; simpl in Hs.
  - injection Hs as <-. exists out. unfold css_path. simpl. rewrite str_app_nil_r.
    split; [exact Ho | apply occurs_in_refl].
  - destruct t as [v ty ext|g]; [discriminate|].
    destruct (group_get k g) as [c|] eqn:Eg; [|discriminate].
    simpl in Ho.
    destruct (run_map _ g) as [parts| |] eqn:Er; try discriminate Ho. simpl in Ho.
    injection Ho as <-.
    destruct (run_map_in _ _ _ _ Er (group_get_in _ _ _ Eg)) as [r1 [Hr1 Hin]].
    cbn [fst snd] in Hr1.
    destruct (IH c tok root _ r1 Hs Hr1) as [r [Hr Hocc]].
    exists r. split.
    + rewrite css_path_cons. rewrite <- str_app_assoc in Hr. exact Hr.
    + exact (occurs_in_trans _ _ _ Hocc (occurs_in_join _ _ _ Hin)).
Qed.

Lemma css_path_join :
  forall k ks, css_path (k :: ks) = "-" ++ join "-" (map slugify_css (k :: ks)).
Proof.
  intros k ks. revert k. induction ks as [|k' ks IH]; intros k.
  - unfold css_path. simpl. rewrite ?str_app_nil_r. reflexivity.
  - rewrite css_path_cons, IH. cbn [map join]. reflexivity.
Qed.

Lemma to_css_single :
  forall iter fuel tokens e ty ext root path r,
  TokenOrGroup_to_css iter fuel tokens (Token (Single e) ty ext) root path = Ret r ->
  exists v, r = "." ++ root ++ " { -" ++ path ++ ": " ++ v ++ "; }" /\
            (ext = None -> v = css_value e).
Proof.
  intros iter fuel tokens e ty ext root path r H. simpl in H.
  destruct ext as [[x]|].
  - destruct (get_value fuel tokens e) as [b| |]; simpl in H; try discriminate H.
    destruct (StudioTokensExtension_to_css x b) as [v| |]; simpl in H; try discriminate H.
    injection H as <-.
    exists v. split; [reflexivity | discriminate].
  - injection H as <-. exists (css_value e). split; reflexivity.
Qed.

(** X15: every plain token at a non-empty group path [ks] gets a custom
    property in the stylesheet, and it is the one a reference to [ks]
    reads: the output holds [.root { --k1-k2-...: v; }] where
    [var(--k1-k2-...)] is how [{ks}] renders, with [v] the token's
    [css_value] when it has no extension. *)
Theorem css_var_declared :
  forall iter fuel doc name out ks e ty ext,
  ks <> [] ->
  subtree (body doc) ks = Some (Token (Single e) ty ext) ->
  DesignTokens_get_name doc = Ret name ->
  DesignTokens_to_css iter fuel doc = Ret out ->
  exists decl v,
    Expression_to_css (Expression.Ref ks) = "var(" ++ decl ++ ")" /\
    occurs_in ("." ++ slugify_css name ++ " { " ++ decl ++ ": " ++ v ++ "; }") out /\
    (ext = None -> v = css_value e).
Proof.
  intros iter fuel doc name out ks e ty ext Hne Hs Hn Ho.
  destruct ks as [|k ks]; [congruence|].
  unfold DesignTokens_to_css in Ho. rewrite Hn in Ho. cbn [bind] in Ho.
  destruct (to_css_subtree _ _ _ _ _ _ _ _ _ Hs Ho) as [r [Hr Hocc]].
  destruct (to_css_single _ _ _ _ _ _ _ _ _ Hr) as [v [-> Hv]].
  exists ("--" ++ join "-" (map slugify_css (k :: ks))), v.
  split; [reflexivity|]. split; [|exact Hv].
  rewrite css_path_join in Hocc. exact Hocc.
Qed.

Lemma css_dict_block_in :
  forall iter fuel doc name out ks d ty ext,
  ks <> [] ->
  subtree (body doc) ks = Some (Token (Dict d) ty ext) ->
  DesignTokens_get_name doc = Ret name ->
  DesignTokens_to_css iter fuel doc = Ret out ->
  occurs_in ("." ++ slugify_css name ++ " ." ++ join "-" (map slugify_css ks) ++ " {"
             ++ char_to_string "010"
             ++ join (char_to_string "010") (map (fun kv => css_entry ty (fst kv) (snd kv)) (iter d))
             ++ char_to_string "010" ++ "}") out.
Proof.
  intros iter fuel doc name out ks d ty ext Hne Hs Hn Ho.
  destruct ks as [|k ks]; [congruence|].
  unfold DesignTokens_to_css in Ho. rewrite Hn in Ho. cbn [bind] in Ho.
  destruct (to_css_subtree _ _ _ _ _ _ _ _ _ Hs Ho) as [r [Hr Hocc]].
  rewrite css_path_join in Hr. simpl in Hr. injection Hr as <-. exact Hocc.
Qed.

Lemma css_root_dict_panics :
  forall iter fuel doc name d ty ext,
  body doc = Token (Dict d) ty ext ->
  DesignTokens_get_name doc = Ret name ->
  DesignTokens_to_css iter fuel doc = Panic IndexOutOfBounds.
Proof.
  intros iter fuel doc name d ty ext Hb Hn.
  unfold DesignTokens_to_css. rewrite Hn, Hb. reflexivity.
Qed.

(** The constant name of a group key: [slugify_rs(key).to_case(Case::UpperFlat)]. *)
Definition rust_key (k : string) : string := to_case_upper_flat (slugify_rs k).

Lemma to_rust_subtree :
  forall iter fuel tokens ks t tok pre out,
  subtree t ks = Some tok ->
  pre <> EmptyString ->
  TokenOrGroup_to_rust iter fuel tokens t pre = Ret out ->
  exists r, TokenOrGroup_to_rust iter fuel tokens tok
              (pre ++ String.concat EmptyString (map (fun k => "_" ++ rust_key k) ks)) = Ret r /\
            occurs_in r out.
Proof.
  intros iter fuel tokens ks. induction ks as [|k ks IH]; intros t tok pre out Hs Hp Ho; simpl in Hs.
  - injection Hs as <-. exists out. simpl. rewrite str_app_nil_r.
    split; [exact Ho | apply occurs_in_refl].
  - destruct t as [v ty ext|g]; [discriminate|].
    destruct (group_get k g) as [c|] eqn:Eg; [|discriminate].
    simpl in Ho.
    destruct (run_map _ g) as [parts| |] eqn:Er; try discriminate Ho. simpl in Ho.
    injection Ho as <-.
    destruct (run_map_in _ _ _ _ Er (group_get_in _ _ _ Eg)) as [r1 [Hr1 Hin]].
    cbn [fst snd] in Hr1.
    assert (Hpe : String.eqb pre EmptyString = false) by (apply String.eqb_neq; exact Hp).
    rewrite Hpe in Hr1.
    assert (Hne : pre ++ "_" ++ rust_key k <> EmptyString) by (destruct pre; [congruence | discriminate]).
    destruct (IH c tok _ r1 Hs Hne Hr1) as [r [Hr Hocc]].
    exists r. split.
    + rewrite <- str_app_assoc in Hr.
      replace (String.concat EmptyString (map (fun k0 => "_" ++ rust_key k0) (k :: ks)))
        with (("_" ++ rust_key k) ++ String.concat EmptyString (map (fun k0 => "_" ++ rust_key k0) ks)).
      * rewrite <- str_app_assoc. exact Hr.
      * cbn [map]. destruct ks; simpl; [rewrite str_app_nil_r|]; reflexivity.
    + exact (occurs_in_trans _ _ _ Hocc (occurs_in_join _ _ _ Hin)).
Qed.

Lemma concat_rust_join :
  forall k ks, rust_key k ++ String.concat EmptyString (map (fun k0 => "_" ++ rust_key k0) ks)
               = join "_" (map rust_key (k :: ks)).
Proof.
  intros k ks. revert k. induction ks as [|k' ks IH]; intros k.
  - simpl. apply str_app_nil_r.
  - specialize (IH k'). cbn [map join] in IH |- *. rewrite <- IH.
    destruct ks; simpl; [rewrite str_app_nil_r|]; reflexivity.
Qed.

Lemma to_rust_token_prefix :
  forall iter fuel tokens v ty ext path r,
  TokenOrGroup_to_rust iter fuel tokens (Token v ty ext) path = Ret r ->
  exists rest, r = "pub const " ++ path ++ ": " ++ rest.
Proof.
  intros iter fuel tokens v ty ext path r H. destruct v as [e|d]; simpl in H.
  - destruct (match ext with Some _ => _ | None => _ end) as [x| |]; simpl in H; try discriminate H.
    injection H as <-. eexists. reflexivity.
  - destruct (run_map _ (iter d)) as [x| |]; simpl in H; try discriminate H.
    injection H as <-. eexists. reflexivity.
Qed.

(** X16: the constant of the token at group path [k :: ks] is named by
    the upper-flat slugs of the keys joined with [_], provided the first
    key's slug is not empty. *)
Theorem rust_const_name :
  forall iter fuel doc out k ks v ty ext,
  rust_key k <> EmptyString ->
  subtree (body doc) (k :: ks) = Some (Token v ty ext) ->
  DesignTokens_to_rust iter fuel doc = Ret out ->
  occurs_in ("pub const " ++ join "_" (map rust_key (k :: ks)) ++ ": ") out.
Proof.
  intros iter fuel doc out k ks v ty ext Hk Hs Ho.
  unfold DesignTokens_to_rust in Ho. simpl in Hs.
  destruct (body doc) as [v0 ty0 ext0|g]; [discriminate|].
  destruct (group_get k g) as [c|] eqn:Eg; [|discriminate].
  cbn [TokenOrGroup_to_rust] in Ho.
  destruct (run_map _ g) as [parts| |] eqn:Er; try discriminate Ho. simpl in Ho.
  injection Ho as <-.
  destruct (run_map_in _ _ _ _ Er (group_get_in _ _ _ Eg)) as [r1 [Hr1 Hin]].
  cbn [fst snd] in Hr1. change (String.eqb EmptyString EmptyString) with true in Hr1.
  cbv beta iota in Hr1.
  destruct (to_rust_subtree _ _ _ _ _ _ _ _ Hs Hk Hr1) as [r [Hr Hocc]].
  rewrite concat_rust_join in Hr.
  destruct (to_rust_token_prefix _ _ _ _ _ _ _ _ Hr) as [rest ->].
  refine (occurs_in_trans _ _ _ _ (occurs_in_trans _ _ _ Hocc (occurs_in_join _ _ _ Hin))).
  exists EmptyString, rest. cbn [append]. rewrite <- str_app_assoc. reflexivity.
Qed.

Lemma str_contains_app_r :
  forall c s t, str_contains c t = true -> str_contains c (s ++ t) = true.
Proof. intros c s t H. induction s as [|c' s IH]; simpl; [exact H|]. rewrite IH. apply orb_true_r. Qed.

Lemma number_to_rust_dot : forall typ v, str_contains "." (NumberType.to_rust typ v) = true.
Proof.
  intros typ v. unfold NumberType.to_rust.
  set (x := display_q _).
  destruct (str_contains "." x) eqn:E; [exact E|].
  apply str_contains_app_r. reflexivity.
Qed.

(** X14: a scalar token's constant is either an [f32] whose literal
    contains a [.] (so it is a float literal even for whole numbers) or a
    [&'static str] holding a double-quoted text. *)
Theorem rust_scalar_literal :
  forall iter fuel tokens e ty ext path s,
  TokenOrGroup_to_rust iter fuel tokens (Token (Single e) ty ext) path = Ret s ->
  (exists lit, s = "pub const " ++ path ++ ": f32 = " ++ lit ++ ";" /\
               str_contains "." lit = true) \/
  (exists txt, s = "pub const " ++ path ++ ": &'static str = " ++ dq ++ txt ++ dq ++ ";").
Proof.
  intros iter fuel tokens e ty ext path s H. simpl in H.
  destruct (match ext with Some _ => _ | None => _ end) as [v| |]; simpl in H; try discriminate H.
  injection H as <-. destruct v as [c|q typ|a]; cbn [Value.to_rust_type Value.to_rust].
  - right. exists (to_hex_string c). rewrite <- !str_app_assoc. reflexivity.
  - left. exists (NumberType.to_rust typ q). split; [reflexivity | apply number_to_rust_dot].
  - right. exists a. rewrite <- !str_app_assoc. reflexivity.
Qed.

(** X17: a composite token at a non-empty group path [ks] renders as the
    block [.root .k1-k2-... {], one [property: value;] line per entry in
    the map's iteration order, and [}]; a document whose body is itself a
    composite token panics, as [&path[1..]] of the empty path is out of
    bounds. *)
Theorem css_dict_block :
  (forall iter fuel doc name out ks d ty ext,
     ks <> [] ->
     subtree (body doc) ks = Some (Token (Dict d) ty ext) ->
     DesignTokens_get_name doc = Ret name ->
     DesignTokens_to_css iter fuel doc = Ret out ->
     occurs_in ("." ++ slugify_css name ++ " ." ++ join "-" (map slugify_css ks) ++ " {"
                ++ char_to_string "010"
                ++ join (char_to_string "010")
                     (map (fun kv => css_entry ty (fst kv) (snd kv)) (iter d))
                ++ char_to_string "010" ++ "}") out) /\
  (forall iter fuel doc name d ty ext,
     body doc = Token (Dict d) ty ext ->
     DesignTokens_get_name doc = Ret name ->
     DesignTokens_to_css iter fuel doc = Panic IndexOutOfBounds).
Proof. split; [exact css_dict_block_in | exact css_root_dict_panics]. Qed.

Lemma rust_scalar_literal_witness :
  exists s,
    TokenOrGroup_to_rust (fun m => m) 3%nat xy_doc
      (Token (Single (Expression.Ref ["y"])) TokenType.Other None) "X" = Ret s /\
    ((exists lit, s = "pub const " ++ "X" ++ ": f32 = " ++ lit ++ ";" /\
                  str_contains "." lit = true) \/
     (exists txt, s = "pub const " ++ "X" ++ ": &'static str = " ++ dq ++ txt ++ dq ++ ";")).
Proof.
  eexists. split; [vm_compute; reflexivity|].
  apply (rust_scalar_literal (fun m => m) 3%nat xy_doc (Expression.Ref ["y"]) TokenType.Other None "X").
  vm_compute. reflexivity.
Defined.

Lemma css_var_declared_witness :
  exists out,
    DesignTokens_to_css (fun m => m) 3%nat brand_doc = Ret out /\
    exists decl v,
      Expression_to_css (Expression.Ref ["Color"; "Brand"]) = "var(" ++ decl ++ ")" /\
      occurs_in ("." ++ slugify_css "ambient" ++ " { " ++ decl ++ ": " ++ v ++ "; }") out /\
      (@None Extensions = None -> v = css_value brand_expr).
Proof.
  eexists. split; [vm_compute; reflexivity|].
  apply (css_var_declared (fun m => m) 3%nat brand_doc "ambient" _ ["Color"; "Brand"]
           brand_expr TokenType.Other None).
  - discriminate.
  - reflexivity.
  - reflexivity.
  - vm_compute. reflexivity.
Defined.

Lemma rust_const_name_witness :
  exists out,
    DesignTokens_to_rust (fun m => m) 3%nat brand_doc = Ret out /\
    occurs_in ("pub const " ++ join "_" (map rust_key ["Color"; "Accent"]) ++ ": ") out.
Proof.
  eexists. split; [vm_compute; reflexivity|].
  apply (rust_const_name (fun m => m) 3%nat brand_doc _ "Color" ["Accent"]
           (Single accent_expr) TokenType.Other None).
  - vm_compute. discriminate.
  - reflexivity.
  - vm_compute. reflexivity.
Defined.

Lemma css_dict_block_witness :
  (exists out,
    DesignTokens_to_css (fun m => m) 3%nat border_doc = Ret out /\
    occurs_in ("." ++ slugify_css "ambient" ++ " ." ++ join "-" (map slugify_css ["Border"]) ++ " {"
               ++ char_to_string "010"
               ++ join (char_to_string "010")
                    (map (fun kv => css_entry TokenType.Border (fst kv) (snd kv))
                       [("style", Expression.Value (Value.Any "solid"));
                        ("width", Expression.Value (Value.Number 1 NumberType.Pixels))])
               ++ char_to_string "010" ++ "}") out) /\
  DesignTokens_to_css (fun m => m) 3
    (mkDesignTokens None (Token (Dict [("style", Expression.Value (Value.Any "solid"))])
                            TokenType.Border None)) = Panic IndexOutOfBounds.
Proof.
  split.
  - eexists. split; [vm_compute; reflexivity|].
    apply (proj1 css_dict_block (fun m => m) 3%nat border_doc "ambient" _ ["Border"]
             [("style", Expression.Value (Value.Any "solid"));
              ("width", Expression.Value (Value.Number 1 NumberType.Pixels))]
             TokenType.Border None).
    + discriminate.
    + reflexivity.
    + reflexivity.
    + vm_compute. reflexivity.
  - apply (proj2 css_dict_block (fun m => m) 3%nat _ "ambient"
             [("style", Expression.Value (Value.Any "solid"))] TokenType.Border None);
      reflexivity.
Defined.

(* ------------------------------------------------------------------ *)
(** ** Colour extremes and the root crate's lookup *)

Lemma Qle_bool_compat : forall x y z, x == y -> Qle_bool x z = Qle_bool y z /\ Qle_bool z x = Qle_bool z y.
Proof.
  intros x y z H. split.
  - destruct (Qle_bool x z) eqn:E1, (Qle_bool y z) eqn:E2; try reflexivity;
    apply Qle_bool_iff in E1 || apply Qle_bool_iff in E2;
    [ rewrite H in E1; apply Qle_bool_iff in E1; congruence
    | rewrite <- H in E2; apply Qle_bool_iff in E2; congruence ].
  - destruct (Qle_bool z x) eqn:E1, (Qle_bool z y) eqn:E2; try reflexivity;
    apply Qle_bool_iff in E1 || apply Qle_bool_iff in E2;
    [ rewrite H in E1; apply Qle_bool_iff in E1; congruence
    | rewrite <- H in E2; apply Qle_bool_iff in E2; congruence ].
Qed.

Lemma channel_u8_compat : forall x y, x == y -> channel_u8 x = channel_u8 y.
Proof.
  intros x y H. unfold channel_u8, Qround_half_away.
  rewrite (proj2 (Qle_bool_compat (x * 255) (y * 255) 0 ltac:(rewrite H; reflexivity))).
  destruct (Qle_bool 0 (y * 255)).
  - rewrite (Qfloor_comp (x * 255 + (1 # 2)) (y * 255 + (1 # 2))) by (rewrite H; reflexivity).
    reflexivity.
  - rewrite (Qfloor_comp (- (x * 255) + (1 # 2)) (- (y * 255) + (1 # 2))) by (rewrite H; reflexivity).
    reflexivity.
Qed.

Lemma to_hex_string_compat :
  forall c d, r c == r d -> g c == g d -> b c == b d -> a c == a d -> to_hex_string c = to_hex_string d.
Proof.
  intros c d Hr Hg Hb Ha. unfold to_hex_string.
  rewrite (channel_u8_compat _ _ Hr), (channel_u8_compat _ _ Hg), (channel_u8_compat _ _ Hb),
    (channel_u8_compat _ _ Ha). reflexivity.
Qed.

Lemma hue_to_rgb_const : forall n1 n2 h k, n1 == k -> n2 == k -> hue_to_rgb n1 n2 h == k.
Proof.
  intros n1 n2 h k H1 H2. unfold hue_to_rgb.
  destruct (flt _ 1); [rewrite Qred_correct, H1, H2; ring|].
  destruct (flt _ 3); [exact H2|].
  destruct (flt _ 4); [rewrite Qred_correct, H1, H2; ring|exact H1].
Qed.

Lemma clamp_to_one : forall t, 1 <= t -> clamp0_1 (Qred t) = 1.
Proof.
  intros t H. unfold clamp0_1, flt.
  assert (Hle : Qle_bool 0 (Qred t) = true) by (apply Qle_bool_iff; rewrite Qred_correct; lra).
  rewrite Hle. cbn [negb].
  destruct (Qle_bool (Qred t) 1) eqn:E; cbn [negb]; [|reflexivity].
  apply Qle_bool_iff in E. rewrite Qred_correct in E.
  change 1 with (Qred 1). apply Qred_complete. lra.
Qed.

Lemma clamp_to_zero : forall t, t <= 0 -> clamp0_1 (Qred t) = 0.
Proof.
  intros t H. unfold clamp0_1, flt.
  destruct (Qle_bool 0 (Qred t)) eqn:E; cbn [negb]; [|reflexivity].
  apply Qle_bool_iff in E. rewrite Qred_correct in E.
  assert (Ht : Qred t = 0) by (change 0 with (Qred 0); apply Qred_complete; lra).
  rewrite Ht. reflexivity.
Qed.

Lemma hsl_to_rgb_white :
  forall h s, let '(r0, g0, b0) := hsl_to_rgb h s 1 in r0 == 1 /\ g0 == 1 /\ b0 == 1.
Proof.
  intros h s. unfold hsl_to_rgb.
  destruct (feq s 0); [repeat split; reflexivity|].
  change (flt 1 (1 # 2)) with false. cbv iota.
  assert (H2 : 1 + s - 1 * s == 1) by ring.
  assert (H1 : 2 * 1 - (1 + s - 1 * s) == 1) by ring.
  repeat split; apply hue_to_rgb_const; assumption.
Qed.

Lemma hsl_to_rgb_black :
  forall h s, let '(r0, g0, b0) := hsl_to_rgb h s 0 in r0 == 0 /\ g0 == 0 /\ b0 == 0.
Proof.
  intros h s. unfold hsl_to_rgb.
  destruct (feq s 0); [repeat split; reflexivity|].
  change (flt 0 (1 # 2)) with true. cbv iota.
  assert (H2 : 0 * (1 + s) == 0) by ring.
  assert (H1 : 2 * 0 - 0 * (1 + s) == 0) by ring.
  repeat split; apply hue_to_rgb_const; assumption.
Qed.

(** X19: the HSL lighten and darken transforms saturate: when the new
    lightness [l + l*f] reaches 1, lightening gives white, and when
    [l - l*f] falls to 0 or below, darkening gives black; the alpha is kept
    (clamped to [0, 1]) and the hue and saturation no longer matter. *)
Theorem hsl_modify_saturates :
  forall v f c h s l a0,
  parse_f64 v = Some f ->
  to_hsla c = (h, s, l, a0) ->
  (1 <= l + l * f ->
     StudioTokensExtension_to_css (Modify StudioTokensModify.Lighten v StudioTokensSpace.Hsl)
       (Value.Color c) = Ret (to_hex_string (mkColor 1 1 1 (clamp0_1 a0)))) /\
  (l - l * f <= 0 ->
     StudioTokensExtension_to_css (Modify StudioTokensModify.Darken v StudioTokensSpace.Hsl)
       (Value.Color c) = Ret (to_hex_string (mkColor 0 0 0 (clamp0_1 a0)))).
Proof.
  intros v f c h s l a0 Hp Hh. split; intros Hl;
    unfold StudioTokensExtension_to_css, str_parse_f64; rewrite Hp, Hh; cbn [hsl_l2 bind]; unfold from_hsla.
  - rewrite (clamp_to_one _ Hl).
    pose proof (hsl_to_rgb_white (normalize_angle h) (clamp0_1 s)) as W.
    destruct (hsl_to_rgb _ _ 1) as [[r0 g0] b0]. destruct W as [Wr [Wg Wb]].
    f_equal. apply to_hex_string_compat; cbn; [exact Wr | exact Wg | exact Wb | reflexivity].
  - rewrite (clamp_to_zero _ Hl).
    pose proof (hsl_to_rgb_black (normalize_angle h) (clamp0_1 s)) as W.
    destruct (hsl_to_rgb _ _ 0) as [[r0 g0] b0]. destruct W as [Wr [Wg Wb]].
    f_equal. apply to_hex_string_compat; cbn; [exact Wr | exact Wg | exact Wb | reflexivity].
Qed.

Lemma hsl_modify_saturates_witness :
  StudioTokensExtension_to_css (Modify StudioTokensModify.Lighten "1" StudioTokensSpace.Hsl)
    (Value.Color (mkColor 1 0 1 1)) = Ret "#ffffff" /\
  StudioTokensExtension_to_css (Modify StudioTokensModify.Darken "1" StudioTokensSpace.Hsl)
    (Value.Color (mkColor 1 0 1 1)) = Ret "#000000".
Proof.
  destruct (hsl_modify_saturates "1" 1 (mkColor 1 0 1 1) 300 1 (1 # 2) 1 eq_refl eq_refl) as [A B].
  split.
  - rewrite A; [vm_compute; reflexivity | vm_compute; discriminate].
  - rewrite B; [vm_compute; reflexivity | vm_compute; discriminate].
Defined.

(** The older root crate's lookup ([src/src/lib.rs]): [group.get(&path[0]).unwrap()]. *)
Module V0Lookup.
Fixpoint TokenOrGroup_get_value (self : TokenOrGroup) (path : list string) : Run TokenValue :=
  match self with
  | Token value _ _ =>
      match path with
      | [] => Ret value
      | _ :: _ => Panic AssertEqFailed
      end
  | Group group =>
      match path with
      | [] => Panic IndexOutOfBounds
      | key :: rest =>
          (fix get (l : list (string * TokenOrGroup)) : Run TokenValue :=
             match l with
             | [] => Panic UnwrapFailed
             | (k, child) :: l' =>
                 if String.eqb key k then TokenOrGroup_get_value child rest else get l'
             end) group
      end
  end.
End V0Lookup.

(** X18: the root crate's lookup agrees with the core crate's, except
    that where the core crate reports a missing key with [None] the root
    crate panics on [unwrap]. *)
Theorem v0_lookup_unwraps :
  forall t p,
  V0Lookup.TokenOrGroup_get_value t p =
    match TokenOrGroup_get_value t p with
    | Ret (Some v) => Ret v
    | Ret None => Panic UnwrapFailed
    | Panic f => Panic f
    | Diverge => Diverge
    end.
Proof.
  intros t p. revert t. induction p as [|k p IH]; intros t.
  - destruct t; reflexivity.
  - destruct t as [v ty ext|g]; [reflexivity|].
    induction g as [|[k' c] g IHg]; [reflexivity|].
    cbn [V0Lookup.TokenOrGroup_get_value TokenOrGroup_get_value].
    destruct (String.eqb k k'); [apply IH|exact IHg].
Qed.

(* ------------------------------------------------------------------ *)
(** ** Printing a number and parsing it back *)

(** [digits_value] reads back the digits [NilEmpty.string_of_uint] writes. *)
Lemma digits_value_acc :
  forall l acc, digits_value_aux (Z.pos acc) (NilEmpty.string_of_uint l) = Z.pos (Pos.of_uint_acc l acc).
Proof.
  induction l; intros acc; cbn [NilEmpty.string_of_uint digits_value_aux Pos.of_uint_acc];
    try reflexivity; rewrite <- IHl; f_equal; simpl Z.of_nat; lia.
Qed.

Lemma digits_value_uint :
  forall l, digits_value_aux 0 (NilEmpty.string_of_uint l) = Z.of_N (Pos.of_uint l).
Proof.
  induction l; cbn [NilEmpty.string_of_uint digits_value_aux Pos.of_uint];
    try exact IHl; try reflexivity; cbn [Z.of_N]; rewrite <- digits_value_acc; reflexivity.
Qed.

Lemma all_digits_uint : forall l, all_chars is_digit (NilEmpty.string_of_uint l) = true.
Proof. induction l; cbn; try exact IHl; reflexivity. Qed.

Lemma uint_string_digits :
  forall n, exists c D, uint_string n = String c D /\ is_digit c = true /\
    all_chars is_digit D = true /\ digits_value (String c D) = Z.of_N n.
Proof.
  intros n. pose proof (DecimalN.Unsigned.of_to n) as E. unfold uint_string, digits_value.
  destruct (N.to_uint n) as [| l | l | l | l | l | l | l | l | l | l]; subst n;
  [exists "0"%char, EmptyString; repeat split; reflexivity| ..];
  eexists; eexists; (split; [reflexivity|]); (split; [reflexivity|]); (split; [apply all_digits_uint|]);
  cbn [digits_value_aux nat_of_ascii];
  first [ exact (digits_value_uint l) | exact (digits_value_acc l _) ].
Qed.

Lemma Qred_inject_Z : forall z, Qred (inject_Z z) = inject_Z z.
Proof.
  intros z. unfold Qred, inject_Z.
  pose proof (Z.ggcd_correct_divisors z 1) as Hd. pose proof (Z.ggcd_gcd z 1) as Hg.
  destruct (Z.ggcd z 1) as [g [aa bb]]. cbn [fst snd] in *. rewrite Z.gcd_1_r in Hg. subst g.
  destruct Hd as [Ha Hb]. rewrite Z.mul_1_l in Ha, Hb. subst. reflexivity.
Qed.

Lemma display_int :
  forall z, display_q (inject_Z z) =
    (if Z.ltb z 0 then "-" else EmptyString) ++ uint_string (Z.to_N (Z.abs z)).
Proof.
  intros z. unfold display_q.
  rewrite Qred_inject_Z.
  cbn [Qnum Qden inject_Z pow2_5 Pos.size_nat Pos.eqb option_map Z.of_nat Z.pow Z.pow_pos Pos.iter].
  rewrite Z.mul_1_r, Z.div_1_r, Z.div_1_r, Z.mod_1_r.
  cbn. rewrite str_app_nil_r. reflexivity.
Qed.

(** The unit suffix of [NumberType::to_css]. *)
Definition unit_suffix (t : NumberType.t) : string :=
  match t with
  | NumberType.None => EmptyString
  | NumberType.Pixels => "px"
  | NumberType.Percentage => "%"
  end.

Lemma number_text :
  forall (neg : bool) (c : ascii) (D : string) (t : NumberType.t),
  is_digit c = true -> all_chars is_digit D = true ->
  number ((if neg then "-" else EmptyString) ++ String c D ++ unit_suffix t) =
    POk (decimal_value neg (String c D) EmptyString) (unit_suffix t).
Proof.
  intros neg c D t Hc HD.
  assert (Hsp : span is_digit (String c D ++ unit_suffix t) = (String c D, unit_suffix t)).
  { apply span_digits_app; [cbn [all_chars]; rewrite Hc, HD; reflexivity | destruct t; reflexivity]. }
  destruct neg.
  - assert (E : forall X, (if true then "-" else EmptyString) ++ X = String "-" X) by reflexivity.
    rewrite E. unfold number. cbv beta iota. rewrite Hsp. destruct t; reflexivity.
  - destruct c as [[] [] [] [] [] [] [] []]; vm_compute in Hc; try discriminate Hc;
    unfold number; cbn [append] in Hsp |- *; cbv beta iota; rewrite Hsp; destruct t; reflexivity.
Qed.

Lemma number_text_parses :
  forall (neg : bool) (c : ascii) (D : string) (t : NumberType.t),
  is_digit c = true -> all_chars is_digit D = true ->
  expr ((if neg then "-" else EmptyString) ++ String c D ++ unit_suffix t) =
    ParseOk (Expression.Value (Value.Number (decimal_value neg (String c D) EmptyString) t)).
Proof.
  intros neg c D t Hc HD. pose proof (number_text neg c D t Hc HD) as Hn.
  unfold expr, expr_prec, atom, alt, p_percentage, p_pixels, p_bare_number.
  rewrite Hn.
  assert (Hr : p_ref ((if neg then "-" else EmptyString) ++ String c D ++ unit_suffix t) = PFail)
    by (destruct neg; [reflexivity | apply p_ref_digit; exact Hc]).
  assert (Hcol : p_color ((if neg then "-" else EmptyString) ++ String c D ++ unit_suffix t) = PFail)
    by (destruct neg; [reflexivity | apply p_color_digit; exact Hc]).
  rewrite Hr, Hcol. destruct t; reflexivity.
Qed.

(** X20: the stylesheet text of an integer number parses back to the
    same number with the same unit: for every integer [z] (negative ones
    included) and every unit, [expr (NumberType::to_css(z))] gives
    [Number(z, unit)]. *)
Theorem number_css_roundtrip :
  forall z t,
  expr (NumberType.to_css t (inject_Z z)) =
    ParseOk (Expression.Value (Value.Number (inject_Z z) t)).
Proof.
  intros z t.
  destruct (uint_string_digits (Z.to_N (Z.abs z))) as [c [D [Hs [Hc [HD Hv]]]]].
  assert (Ht : NumberType.to_css t (inject_Z z) =
               (if Z.ltb z 0 then "-" else EmptyString) ++ String c D ++ unit_suffix t).
  { destruct t; unfold NumberType.to_css; rewrite display_int, Hs; cbn [unit_suffix].
    - rewrite str_app_nil_r. reflexivity.
    - rewrite str_app_assoc. reflexivity.
    - rewrite str_app_assoc. reflexivity. }
  rewrite Ht, (number_text_parses _ _ _ _ Hc HD).
  do 3 f_equal.
  unfold decimal_value. rewrite str_app_nil_r, Hv, Z2N.id by apply Z.abs_nonneg.
  change (Z.to_pos (10 ^ Z.of_nat (String.length EmptyString))) with 1%positive.
  destruct (Z.ltb_spec z 0) as [Hz|Hz].
  - rewrite Z.abs_neq by lia. rewrite Z.opp_involutive. apply Qred_inject_Z.
  - rewrite Z.abs_eq by lia. apply Qred_inject_Z.
Qed.
